(** * feedmix: the fetch / truncate / annotate / merge pipeline of [FeedMixer]

    A shallow embedding of [src/feedmix/feedmixer.py].

    - Python values keep the shape the code sees through the dict interface of
      [FeedParserDict]: a key that may be missing is an [option] field.
    - [str] is [string]; comparison of [str] is lexicographic on code points,
      which on UTF-8 encoded text is the byte-wise order of [String.compare].
    - Parsed feeds are objects: [cache_parser] hands out the same object for
      the same text, and the fetch loop writes into the entries of that
      object. The object store and the LRU cache are therefore explicit.
    - Exceptions are values of [Exn]; a computation is a function from the
      state to an outcome and the state it leaves behind. *)

From Stdlib Require Import ZArith String Sorting.Sorted OrderedTypeEx.
From stdpp Require Import base list gmap strings pretty.

Local Open Scope string_scope.
Local Open Scope Z_scope.
Local Open Scope list_scope.

(** ** Python helpers *)

Module Py.

(** Truthiness of an optional string: [None] and [""] are falsy. *)
Definition truthy (x : option string) : bool :=
  match x with
  | Some s => negb (String.eqb s "")
  | None => false
  end.

(** [x or y] on optional strings. *)
Definition or (x y : option string) : option string :=
  if truthy x then x else y.

(** [l[:n]] for an integer [n]: a negative bound counts from the end. *)
Definition slice_to {A} (n : Z) (l : list A) : list A :=
  if (0 <=? n) then take (Z.to_nat n) l
  else take (length l - Z.to_nat (- n))%nat l.

(** [str.format] of an optional value: [None] prints as ["None"]. *)
Definition fmt (x : option string) : string :=
  match x with
  | Some s => s
  | None => "None"
  end.

Section Sort.
Context {A K : Type} (key : A → K) (le : K → K → bool).

(** [list.sort(key=key, reverse=True)] is a stable sort into non-increasing
    key order: an element is placed in front of the first element whose key is
    not above its own, so it stays behind the earlier elements with its key.
    With [le] flipped, the same function is the stable ascending sort. *)
Fixpoint insert (x : A) (l : list A) : list A :=
  match l with
  | [] => [x]
  | y :: l' => if le (key y) (key x) then x :: y :: l' else y :: insert x l'
  end.

Fixpoint sort (l : list A) : list A :=
  match l with
  | [] => []
  | x :: l' => insert x (sort l')
  end.

(** [x] may stand in front of [y] in the sorted list. *)
Definition before (x y : A) : Prop := le (key y) (key x) = true.

End Sort.

End Py.

(** ** Exceptions and computations *)

Inductive Exn : Type :=
| RequestException (msg : string)   (* [sess.get] or [raise_for_status] *)
| ParseError (msg : string)
| AttributeError (attr : string)    (* missing key read as an attribute *)
| KeyError (key : string)
| ValueError (msg : string)
| OtherException (msg : string).    (* anything else out of a worker *)

Inductive outcome (A : Type) : Type :=
| Returns (a : A)
| Raises (e : Exn).
Arguments Returns {A} a.
Arguments Raises {A} e.

#[global] Instance Exn_eq_dec : EqDecision Exn.
Proof. solve_decision. Defined.

(** A computation over a state [S]: an exception leaves the writes made
    before it in place. *)
Definition M (S A : Type) : Type := S → outcome A * S.

Definition ret {S A} (a : A) : M S A := λ s, (Returns a, s).
Definition raise {S A} (e : Exn) : M S A := λ s, (Raises e, s).
Definition bind {S A B} (m : M S A) (k : A → M S B) : M S B :=
  λ s, match m s with
       | (Returns a, s') => k a s'
       | (Raises e, s') => (Raises e, s')
       end.
Definition modify {S} (f : S → S) : M S unit := λ s, (Returns tt, f s).

(** [try: m except Exception as e: h e] *)
Definition try_except {S A} (m : M S A) (h : Exn → M S A) : M S A :=
  λ s, match m s with
       | (Returns a, s') => (Returns a, s')
       | (Raises e, s') => h e s'
       end.

(** The outcome of a call that touches no state of its own, or that was
    made elsewhere (a finished future), inside a computation. *)
Definition result {S A} (o : outcome A) : M S A :=
  match o with
  | Returns a => ret a
  | Raises e => raise e
  end.

(** A function that touches no state returns an [outcome] directly. *)
#[global] Instance outcome_ret : MRet outcome := λ A a, Returns a.
#[global] Instance outcome_bind : MBind outcome :=
  λ A B k o, match o with
             | Returns a => k a
             | Raises e => Raises e
             end.

(** [obj.name] on a [FeedParserDict]: a missing key is an [AttributeError]. *)
Definition attr {A} (name : string) (x : option A) : outcome A :=
  match x with
  | Some a => Returns a
  | None => Raises (AttributeError name)
  end.

(** [d[key]] on a dict: a missing key is a [KeyError]. *)
Definition item {A} (key : string) (x : option A) : outcome A :=
  match x with
  | Some a => Returns a
  | None => Raises (KeyError key)
  end.

#[global] Instance M_ret {S} : MRet (M S) := λ A a, ret a.
#[global] Instance M_bind {S} : MBind (M S) := λ A B k m, bind m k.

(** [for x in l: body x] *)
Fixpoint for_each {S A} (l : list A) (body : A → M S unit) : M S unit :=
  match l with
  | [] => ret tt
  | x :: l' => body x;; for_each l' body
  end.

(** [for x in l: acc = body x acc], the loop variable threaded by hand. *)
Fixpoint for_fold {S A B} (l : list A) (body : A → B → M S B) (acc : B)
  : M S B :=
  match l with
  | [] => ret acc
  | x :: l' => acc' ← body x acc; for_fold l' body acc'
  end.

(** ** Data model *)

(** [author_detail] of a feed or of an entry. *)
Record AuthorDetail : Type := mkAuthorDetail {
  ad_email : option string;
  ad_name : option string;
  ad_href : option string
}.

(** One block of an entry's [content] list. *)
Record ContentBlock : Type := mkContentBlock {
  cb_value : option string
}.

Record Tag : Type := mkTag {
  tag_term : option string
}.

(** An element of [e['enclosures']], read by attribute in [extract_meta]. *)
Record RawEnclosure : Type := mkRawEnclosure {
  enc_href : option string;
  enc_length : option string;
  enc_type : option string
}.

(** A [time.struct_time] as far as the code reads it: fields 0 to 5. *)
Record TimeTuple : Type := mkTimeTuple {
  tm_year : Z; tm_mon : Z; tm_mday : Z;
  tm_hour : Z; tm_min : Z; tm_sec : Z
}.

(** A raw entry: the keys of the entry dict that the code reads or writes. *)
Record Entry : Type := mkEntry {
  title : option string;
  link : option string;
  summary : option string;
  content : option (list ContentBlock);
  author_detail : option AuthorDetail;
  feed_link : option string;
  feed_title : option string;
  published : option string;
  updated : option string;
  published_parsed : option TimeTuple;
  updated_parsed : option TimeTuple;
  comments : option string;
  id : option string;
  license : option string;
  tags : option (list Tag);
  enclosures : option (list RawEnclosure)
}.

(** [f.feed]: the feed-level metadata. *)
Record FeedInfo : Type := mkFeedInfo {
  fi_link : option string;
  fi_title : option string;
  fi_author_detail : option AuthorDetail
}.

(** What [feedparser.parse] returns. *)
Record ParsedFeed : Type := mkParsedFeed {
  feed : FeedInfo;
  entries : list Entry;
  bozo : bool;
  bozo_exception : option string
}.

#[global] Instance AuthorDetail_eq_dec : EqDecision AuthorDetail.
Proof. solve_decision. Defined.
#[global] Instance ContentBlock_eq_dec : EqDecision ContentBlock.
Proof. solve_decision. Defined.
#[global] Instance Tag_eq_dec : EqDecision Tag.
Proof. solve_decision. Defined.
#[global] Instance RawEnclosure_eq_dec : EqDecision RawEnclosure.
Proof. solve_decision. Defined.
#[global] Instance TimeTuple_eq_dec : EqDecision TimeTuple.
Proof. solve_decision. Defined.
#[global] Instance Entry_eq_dec : EqDecision Entry.
Proof. solve_decision. Defined.
#[global] Instance FeedInfo_eq_dec : EqDecision FeedInfo.
Proof. solve_decision. Defined.
#[global] Instance ParsedFeed_eq_dec : EqDecision ParsedFeed.
Proof. solve_decision. Defined.

#[global] Instance FeedInfo_inhabited : Inhabited FeedInfo :=
  populate (mkFeedInfo None None None).
#[global] Instance ParsedFeed_inhabited : Inhabited ParsedFeed :=
  populate (mkParsedFeed inhabitant [] false None).

(** The three writes of the fetch loop: [e[key] = v]. *)
Definition set_feed_link (v : string) (e : Entry) : Entry :=
  mkEntry (title e) (link e) (summary e) (content e) (author_detail e)
    (Some v) (feed_title e) (published e) (updated e) (published_parsed e)
    (updated_parsed e) (comments e) (id e) (license e) (tags e) (enclosures e).

Definition set_feed_title (v : string) (e : Entry) : Entry :=
  mkEntry (title e) (link e) (summary e) (content e) (author_detail e)
    (feed_link e) (Some v) (published e) (updated e) (published_parsed e)
    (updated_parsed e) (comments e) (id e) (license e) (tags e) (enclosures e).

Definition set_author_detail (v : AuthorDetail) (e : Entry) : Entry :=
  mkEntry (title e) (link e) (summary e) (content e) (Some v)
    (feed_link e) (feed_title e) (published e) (updated e) (published_parsed e)
    (updated_parsed e) (comments e) (id e) (license e) (tags e) (enclosures e).

(** ** The object store and the parse cache *)

(** The parsed feeds live in [heap], addressed by position; an entry object
    is addressed by its feed and its index in [f.entries], which nothing ever
    reorders. [lru] is the table of [functools.lru_cache], most recently used
    first, from the text to the object parsed from it. *)
Record Store : Type := mkStore {
  heap : list ParsedFeed;
  lru : list (string * nat)
}.

Definition EntryRef : Type := nat * nat.

Definition empty_store : Store := mkStore [] [].

(** [@functools.lru_cache(maxsize=128)] *)
Definition maxsize : nat := 128.

(** The object at an address. The addresses in use are those handed out by
    [cache_parser], which are allocated; elsewhere the lookup gives an empty
    feed and a write changes nothing. *)
Definition read_feed (a : nat) (st : Store) : ParsedFeed := heap st !!! a.

(** Write [upd e] over the entry [e] at [r]. *)
Definition write_entry (r : EntryRef) (upd : Entry → Entry) (st : Store)
  : Store :=
  mkStore
    (alter (λ f, mkParsedFeed (feed f) (alter upd r.2 (entries f))
                   (bozo f) (bozo_exception f)) r.1 (heap st))
    (lru st).

(** [f.entries] as the list of the entry objects of the feed at [a]. *)
Definition entry_refs (a : nat) (f : ParsedFeed) : list EntryRef :=
  imap (λ i _, (a, i)) (entries f).

#[global] Instance Entry_inhabited : Inhabited Entry :=
  populate (mkEntry None None None None None None None None None None None
              None None None None None).

Definition read_entry (st : Store) (r : EntryRef) : Entry :=
  entries (read_feed r.1 st) !!! r.2.

(** ** Canonical entries: the keyword arguments for [feedgenerator] *)

Record datetime : Type := mkDatetime {
  dt_year : Z; dt_month : Z; dt_day : Z;
  dt_hour : Z; dt_minute : Z; dt_second : Z
}.

(** An object built by [feedgenerator.Enclosure(url, length, mime_type)],
    known by the arguments of the call; what the class keeps of them (it
    stores [iri_to_uri(url)]) is the library's. *)
Record Enclosure : Type := mkEnclosure {
  arg_url : string;
  arg_length : string;
  arg_mime_type : string
}.

Record AuthorMeta : Type := mkAuthorMeta {
  author_email : option string;
  author_name : option string;
  author_link : option string
}.

(** What [metadata['description']] may hold: [None], a string (a summary or
    the value of a content block), or the empty list that [e.get('content')]
    gave, which the test [if content:] leaves as it is. *)
Inductive Description : Type :=
| NoDescription
| Text (s : string)
| EmptyContent.

(** [e.get(key)] for a key that holds a string. *)
Definition text_or_none (x : option string) : Description :=
  match x with
  | Some s => Text s
  | None => NoDescription
  end.

(** Truthiness: [None], [""] and [[]] are falsy. *)
Definition description_truthy (x : Description) : bool :=
  match x with
  | Text s => negb (String.eqb s "")
  | NoDescription | EmptyContent => false
  end.

(** [x or y] *)
Definition description_or (x y : Description) : Description :=
  if description_truthy x then x else y.

(** The [metadata] dict: a key that is only set under a condition is an
    [option]; [author] groups the three author keys, set together. *)
Record Metadata : Type := mkMetadata {
  md_title : string;
  md_link : string;
  md_description : Description;
  md_author : option AuthorMeta;
  md_feed_link : string;
  md_feed_title : string;
  md_pubdate : option datetime;
  md_updateddate : option datetime;
  md_comments : option string;
  md_unique_id : option string;
  md_item_copyright : option string;
  md_categories : option (list (option string));
  md_enclosures : option (list Enclosure);
  md_enclosure : option Enclosure
}.

#[global] Instance datetime_eq_dec : EqDecision datetime.
Proof. solve_decision. Defined.
#[global] Instance Description_eq_dec : EqDecision Description.
Proof. solve_decision. Defined.
#[global] Instance Enclosure_eq_dec : EqDecision Enclosure.
Proof. solve_decision. Defined.
#[global] Instance AuthorMeta_eq_dec : EqDecision AuthorMeta.
Proof. solve_decision. Defined.
#[global] Instance Metadata_eq_dec : EqDecision Metadata.
Proof. solve_decision. Defined.

(** The range checks of the [datetime.datetime] constructor, in the order
    CPython makes them and with its messages: the date fields, then the time
    fields; the first field out of range is the one reported. *)
Definition is_leap (y : Z) : bool :=
  (y mod 4 =? 0) && (negb (y mod 100 =? 0) || (y mod 400 =? 0)).

Definition days_in_month (y m : Z) : Z :=
  if m =? 2 then (if is_leap y then 29 else 28)
  else if (m =? 4) || (m =? 6) || (m =? 9) || (m =? 11) then 30
  else 31.

Definition datetime_new (y mo d h mi s : Z) : outcome datetime :=
  if negb ((1 <=? y) && (y <=? 9999)) then
    Raises (ValueError (String.append "year "
                          (String.append (pretty y) " is out of range")))
  else if negb ((1 <=? mo) && (mo <=? 12)) then
    Raises (ValueError "month must be in 1..12")
  else if negb ((1 <=? d) && (d <=? days_in_month y mo)) then
    Raises (ValueError "day is out of range for month")
  else if negb ((0 <=? h) && (h <=? 23)) then
    Raises (ValueError "hour must be in 0..23")
  else if negb ((0 <=? mi) && (mi <=? 59)) then
    Raises (ValueError "minute must be in 0..59")
  else if negb ((0 <=? s) && (s <=? 59)) then
    Raises (ValueError "second must be in 0..59")
  else Returns (mkDatetime y mo d h mi s).

(** [a < b] on two [datetime] objects: the order of their fields, the year
    first. *)
Definition datetime_ltb (a b : datetime) : bool :=
  let fix lt (x y : list Z) : bool :=
    match x, y with
    | u :: x', v :: y' => (u <? v) || ((u =? v) && lt x' y')
    | _, _ => false
    end in
  lt [dt_year a; dt_month a; dt_day a; dt_hour a; dt_minute a; dt_second a]
     [dt_year b; dt_month b; dt_day b; dt_hour b; dt_minute b; dt_second b].

(** The first five fields of [tp] and [min(tp[5], 59)], handed to the
    [datetime.datetime] constructor. *)
Definition datetime_of (tp : TimeTuple) : outcome datetime :=
  datetime_new (tm_year tp) (tm_mon tp) (tm_mday tp) (tm_hour tp) (tm_min tp)
    (Z.min (tm_sec tp) 59).

(** [if x: y = f(x)] for a key that may be missing. *)
Definition optional {A B} (f : A → outcome B) (x : option A)
  : outcome (option B) :=
  match x with
  | Some a => b ← f a; mret (Some b)
  | None => mret None
  end.

(** [feedgenerator.Enclosure(enc.href, enc.length, enc.type)] *)
Definition enclosure_of (enc : RawEnclosure) : outcome Enclosure :=
  h ← attr "href" (enc_href enc);
  l ← attr "length" (enc_length enc);
  t ← attr "type" (enc_type enc);
  mret (mkEnclosure h l t).

(** [for enc in e['enclosures']: enclist.append(...)] *)
Fixpoint enclosures_of (encs : list RawEnclosure) : outcome (list Enclosure) :=
  match encs with
  | [] => mret []
  | enc :: encs' =>
      x ← enclosure_of enc;
      xs ← enclosures_of encs';
      mret (x :: xs)
  end.

(** [content] after [if content: content = content[0].get('value')]: the
    value of the first block of a list that is not empty; an empty list and
    [None] are falsy and stay as they are. *)
Definition first_content (content : option (list ContentBlock)) : Description :=
  match content with
  | Some (c :: _) => text_or_none (cb_value c)
  | Some [] => EmptyContent
  | None => NoDescription
  end.

(** The body of the loop of [extract_meta] for one entry. *)
Definition extract_one (prefer_summary : bool) (e : Entry) : outcome Metadata :=
  let summary := text_or_none (summary e) in
  let content := first_content (content e) in
  let content :=
    if prefer_summary then description_or summary content
    else description_or content summary in
  let author :=
    (λ ad, mkAuthorMeta (ad_email ad) (ad_name ad) (ad_href ad))
      <$> author_detail e in
  fl ← item "feed_link" (feed_link e);
  ft ← item "feed_title" (feed_title e);
  pubdate ← optional datetime_of (published_parsed e);
  updateddate ← optional datetime_of (updated_parsed e);
  let categories := fmap (M := list) tag_term <$> tags e in
  enclist ← optional enclosures_of (enclosures e);
  mret (mkMetadata (default "" (title e)) (default "" (link e)) content author
          fl ft pubdate updateddate (comments e) (id e) (license e)
          categories enclist (enclist ≫= head)).

(** [extract_meta] is a static method: it reads and writes no state. *)
Fixpoint extract_meta (parsed_entries : list Entry) (prefer_summary : bool)
  : outcome (list Metadata) :=
  match parsed_entries with
  | [] => mret []
  | e :: rest =>
      metadata ← extract_one prefer_summary e;
      mixed ← extract_meta rest prefer_summary;
      mret (metadata :: mixed)
  end.

(** The merge key:
    [lambda e: e.get('published') or e.get('updated') or ""] *)
Definition sort_key (e : Entry) : string :=
  default "" (Py.or (Py.or (published e) (updated e)) (Some "")).

(** [parsed_entries.sort(key=..., reverse=True)] *)
Definition sort_entries (parsed_entries : list Entry) : list Entry :=
  Py.sort sort_key String.leb parsed_entries.

(** ** The mixer object *)

Record Session : Type := mkSession {
  headers : gmap string string
}.

Record FeedMixer : Type := mkFeedMixer {
  self_title : string;
  self_link : string;
  self_desc : string;
  max_feeds : Z;
  _feeds : list string;
  _num_keep : Z;
  prefer_summary : bool;
  max_threads : Z;
  _mixed_entries : list Metadata;
  _error_urls : gmap string Exn;
  sess : Session
}.

Definition with_feeds (v : list string) (fm : FeedMixer) : FeedMixer :=
  mkFeedMixer (self_title fm) (self_link fm) (self_desc fm) (max_feeds fm)
    v (_num_keep fm) (prefer_summary fm) (max_threads fm)
    (_mixed_entries fm) (_error_urls fm) (sess fm).

Definition with_num_keep (v : Z) (fm : FeedMixer) : FeedMixer :=
  mkFeedMixer (self_title fm) (self_link fm) (self_desc fm) (max_feeds fm)
    (_feeds fm) v (prefer_summary fm) (max_threads fm)
    (_mixed_entries fm) (_error_urls fm) (sess fm).

Definition with_mixed_entries (v : list Metadata) (fm : FeedMixer)
  : FeedMixer :=
  mkFeedMixer (self_title fm) (self_link fm) (self_desc fm) (max_feeds fm)
    (_feeds fm) (_num_keep fm) (prefer_summary fm) (max_threads fm)
    v (_error_urls fm) (sess fm).

Definition with_error_urls (v : gmap string Exn) (fm : FeedMixer)
  : FeedMixer :=
  mkFeedMixer (self_title fm) (self_link fm) (self_desc fm) (max_feeds fm)
    (_feeds fm) (_num_keep fm) (prefer_summary fm) (max_threads fm)
    (_mixed_entries fm) v (sess fm).

(** The arguments of the constructor, with their defaults. *)
Record Config : Type := mkConfig {
  cfg_title : string;
  cfg_link : string;
  cfg_desc : string;
  cfg_feeds : list string;
  cfg_num_keep : Z;
  cfg_prefer_summary : bool;
  cfg_max_threads : Z;
  cfg_max_feeds : Z;
  cfg_sess : option Session
}.

Definition default_config : Config :=
  mkConfig "Title" "" "" [] 3 true 10 100 None.

(** What one run finds on the network: [response i u] is what the future of
    the [i]-th submitted fetch, for the URL [u], holds (the text of the
    response, or the exception of [sess.get] or [raise_for_status]);
    [finish_time i] is when it completes. *)
Record Network : Type := mkNetwork {
  response : nat → string → outcome string;
  finish_time : nat → nat
}.

(** [concurrent.futures.as_completed(future_to_url)]: the submitted fetches
    in order of completion, each with its URL and its outcome. *)
Definition as_completed (net : Network) (urls : list string)
  : list (string * outcome string) :=
  (λ iu, (iu.2, response net iu.1 iu.2))
    <$> Py.sort (λ iu : nat * string, finish_time net iu.1)
          (λ a b, Nat.leb b a) (imap pair urls).

(** The generator classes of [feedgenerator] and [jsonfeed]. Their code is
    not the mixer's: a feed object is known here by what the mixer does with
    it, that is the class it is built from, the keyword arguments of the
    construction, and the [add_item] calls made on it, in order. What the
    class keeps of these arguments (it stores [iri_to_uri(link)], not the
    link) and what [writeString] prints from them is the library's. *)
Inductive GenCls : Type := Atom1Feed | Rss201rev2Feed | JSONFeed.

Record SyndicationFeed : Type := mkSyndicationFeed {
  gen_cls : GenCls;
  kw_title : string;          (* [title=self.title] *)
  kw_link : string;           (* [link=self.link] *)
  kw_description : string;    (* [description=self.desc] *)
  add_item_calls : list Metadata
}.

(** [gen.add_item( **e)]: one more call, with the canonical entry as its
    keyword arguments. *)
Definition add_item (e : Metadata) (gen : SyndicationFeed) : SyndicationFeed :=
  mkSyndicationFeed (gen_cls gen) (kw_title gen) (kw_link gen)
    (kw_description gen) (add_item_calls gen ++ [e]).

(** The state a method runs in: the mixer and the process-wide store. *)
Record Proc : Type := mkProc {
  self : FeedMixer;
  store : Store
}.

Definition on_store {A} (m : M Store A) : M Proc A :=
  λ p, let '(o, st) := m (store p) in (o, mkProc (self p) st).

Definition on_self (f : FeedMixer → FeedMixer) : M Proc unit :=
  modify (λ p, mkProc (f (self p)) (store p)).

Definition gets {S A} (f : S → A) : M S A := λ s, (Returns (f s), s).

(** ** The pipeline *)

Section Pipeline.

(** The collaborators: [feedparser.parse], the headers of a fresh
    [requests.Session()], and [writeString('utf-8')] of the generators. *)
Variable parse : string → ParsedFeed.
Variable default_headers : gmap string string.
Variable writeString : SyndicationFeed → string.

(** [cache_parser(text)]: on a hit the cached object, moved to the front of
    the table; on a miss a new object, entered in front, the least recently
    used entry dropped when the table is full. *)
Definition cache_parser (text : string) : M Store nat :=
  λ st,
    match list_find (λ p : string * nat, p.1 = text) (lru st) with
    | Some (j, (_, a)) =>
        (Returns a, mkStore (heap st) ((text, a) :: delete j (lru st)))
    | None =>
        let a := length (heap st) in
        (Returns a,
         mkStore (heap st ++ [parse text])
           (take maxsize ((text, a) :: lru st)))
    end.

(** The body of [for e in newest], [f] being the feed object at [a]. The
    attribute write [e.author_detail = ...] is not a key of the dict and is
    read nowhere; it is left out. *)
Definition annotate (a : nat) (e : EntryRef) : M Store unit :=
  f ← gets (read_feed a);
  l ← result (attr "link" (fi_link (feed f)));
  modify (write_entry e (set_feed_link l));;
  t ← result (attr "title" (fi_title (feed f)));
  modify (write_entry e (set_feed_title t));;
  ent ← gets (λ st, read_entry st e);
  match author_detail ent with
  | None =>
      match fi_author_detail (feed f) with
      | Some ad => modify (write_entry e (set_author_detail ad))
      | None => mret tt
      end
  | Some _ => mret tt
  end.

(** [parse_err = len(f.get('entries')) == 0 and f.get('bozo')] *)
Definition parse_err (f : ParsedFeed) : bool :=
  (length (entries f) =? 0)%nat && bozo f.

(** [newest]: all the entry objects, or [f.entries[0:num_keep]]. *)
Definition newest_of (num_keep : Z) (a : nat) (f : ParsedFeed)
  : list EntryRef :=
  if num_keep <? 1 then entry_refs a f
  else Py.slice_to num_keep (entry_refs a f).

(** The [try] block of the loop for one completed future: the entry objects
    the source adds to [parsed_entries]. *)
Definition fetch_source (num_keep : Z) (res : outcome string)
  : M Store (list EntryRef) :=
  text ← result res;
  a ← cache_parser text;
  f ← gets (read_feed a);
  if parse_err f
  then raise (ParseError (String.append "Parse error: "
                            (Py.fmt (bozo_exception f))))
  else
    let newest := newest_of num_keep a f in
    for_each newest (annotate a);;
    mret newest.

(** [self._error_urls[url] = e] *)
Definition record_error (u : string) (e : Exn) (fm : FeedMixer) : FeedMixer :=
  with_error_urls (<[u := e]> (_error_urls fm)) fm.

(** One turn of [for future in as_completed(...)]; [self._num_keep] does not
    change during the loop and is passed in. *)
Definition fetch_step (num_keep : Z) (done : string * outcome string)
    (parsed_entries : list EntryRef) : M Proc (list EntryRef) :=
  try_except
    (newest ← on_store (fetch_source num_keep done.2);
     mret (parsed_entries ++ newest))
    (λ e, on_self (record_error done.1 e);; mret parsed_entries).

(** [ThreadPoolExecutor(max_workers=n)] refuses [n <= 0]. *)
Definition thread_pool (max_workers : Z) : M Proc unit :=
  if max_workers <=? 0
  then raise (ValueError "max_workers must be greater than 0")
  else mret tt.

(** The loop of [__fetch_entries] over the completed futures, then the
    entries behind the collected objects as the sort reads them. *)
Definition collect (num_keep : Z) (completed : list (string * outcome string))
  : M Proc (list Entry) :=
  parsed_entries ← for_fold completed (fetch_step num_keep) [];
  st ← gets store;
  mret (read_entry st <$> parsed_entries).

Definition __fetch_entries (net : Network) : M Proc unit :=
  on_self (with_error_urls ∅);;
  fm ← gets self;
  thread_pool (max_threads fm);;
  parsed_entries ← collect (_num_keep fm) (as_completed net (_feeds fm));
  let parsed_entries := sort_entries parsed_entries in
  mixed_entries ← result (extract_meta parsed_entries (prefer_summary fm));
  on_self (with_mixed_entries mixed_entries).

(** *** Properties and setters *)

Definition __init__ (cfg : Config) : outcome FeedMixer :=
  let sess := default (mkSession default_headers) (cfg_sess cfg) in
  let sess :=
    mkSession (<["User-Agent" := "feedmixer (github.com/cristoper/feedmixer)"]>
                 (headers sess)) in
  Returns
    (mkFeedMixer (cfg_title cfg) (cfg_link cfg) (cfg_desc cfg)
       (cfg_max_feeds cfg)
       (Py.slice_to (cfg_max_feeds cfg) (cfg_feeds cfg))
       (cfg_num_keep cfg) (cfg_prefer_summary cfg) (cfg_max_threads cfg)
       [] ∅ sess).

Definition num_keep : M Proc Z := gets (λ p, _num_keep (self p)).

Definition feeds : M Proc (list string) := gets (λ p, _feeds (self p)).

(** [self._feeds = value[:self.max_feeds]; self._mixed_entries = []] *)
Definition set_feeds (value : list string) (fm : FeedMixer) : FeedMixer :=
  with_mixed_entries [] (with_feeds (Py.slice_to (max_feeds fm) value) fm).

Definition feeds_setter (value : list string) : M Proc unit :=
  on_self (set_feeds value).

(** [self._num_keep = value; self.feeds = self._feeds] *)
Definition set_num_keep (value : Z) (fm : FeedMixer) : FeedMixer :=
  let fm := with_num_keep value fm in
  set_feeds (_feeds fm) fm.

Definition num_keep_setter (value : Z) : M Proc unit :=
  on_self (set_num_keep value).

Definition mixed_entries (net : Network) : M Proc (list Metadata) :=
  fm ← gets self;
  (if (length (_mixed_entries fm) <? 1)%nat
   then __fetch_entries net
   else mret tt);;
  gets (λ p, _mixed_entries (self p)).

Definition error_urls : M Proc (gmap string Exn) :=
  gets (λ p, _error_urls (self p)).

(** *** Rendering *)

(** [gen = gen_cls(title=self.title, link=self.link, description=self.desc)],
    then [gen.add_item( **e)] for each [e] of [self.mixed_entries]. *)
Definition __generate_feed (cls : GenCls) (net : Network)
  : M Proc SyndicationFeed :=
  fm ← gets self;
  let gen :=
    mkSyndicationFeed cls (self_title fm) (self_link fm) (self_desc fm) [] in
  es ← mixed_entries net;
  mret (foldl (λ g e, add_item e g) gen es).

Definition atom_feed (net : Network) : M Proc string :=
  gen ← __generate_feed Atom1Feed net; mret (writeString gen).

Definition rss_feed (net : Network) : M Proc string :=
  gen ← __generate_feed Rss201rev2Feed net; mret (writeString gen).

Definition json_feed (net : Network) : M Proc string :=
  gen ← __generate_feed JSONFeed net; mret (writeString gen).

End Pipeline.

(** ** The pipeline as values *)

(** What the body of the annotation loop turns an entry into, when the feed
    has a link [l] and a title [t]. *)
Definition fill_author (fd : FeedInfo) (e : Entry) : Entry :=
  match author_detail e with
  | None =>
      match fi_author_detail fd with
      | Some ad => set_author_detail ad e
      | None => e
      end
  | Some _ => e
  end.

Definition annotated (fd : FeedInfo) (l t : string) (e : Entry) : Entry :=
  fill_author fd (set_feed_title t (set_feed_link l e)).

(** An entry object of a feed [fd] over time: as it was, or with the link
    written (the loop stopped at a missing title), or annotated. *)
Definition entry_evolves (fd : FeedInfo) (e e' : Entry) : Prop :=
  e' = e
  ∨ (∃ l, fi_link fd = Some l ∧ e' = set_feed_link l e)
  ∨ (∃ l t, fi_link fd = Some l ∧ fi_title fd = Some t
            ∧ e' = annotated fd l t e).

Definition feed_evolves (f f' : ParsedFeed) : Prop :=
  feed f' = feed f ∧ bozo f' = bozo f
  ∧ bozo_exception f' = bozo_exception f
  ∧ Forall2 (entry_evolves (feed f)) (entries f) (entries f').

Definition heap_evolves (h h' : list ParsedFeed) : Prop :=
  ∀ a f, h !! a = Some f → ∃ f', h' !! a = Some f' ∧ feed_evolves f f'.

(** The keys of an entry that the fetch loop never writes. *)
Definition untouched (e e' : Entry) : Prop :=
  title e' = title e ∧ link e' = link e ∧ summary e' = summary e
  ∧ content e' = content e ∧ published e' = published e
  ∧ updated e' = updated e ∧ published_parsed e' = published_parsed e
  ∧ updated_parsed e' = updated_parsed e ∧ comments e' = comments e
  ∧ id e' = id e ∧ license e' = license e ∧ tags e' = tags e
  ∧ enclosures e' = enclosures e
  ∧ (∀ ad, author_detail e = Some ad → author_detail e' = Some ad).

(** An entry object whose annotation is complete: the loop body rewrites it
    to itself. *)
Definition settled (st : Store) (r : EntryRef) : Prop :=
  ∃ f e l t,
    heap st !! r.1 = Some f ∧ entries f !! r.2 = Some e
    ∧ fi_link (feed f) = Some l ∧ fi_title (feed f) = Some t
    ∧ annotated (feed f) l t e = e.

(** ** Reading the merged sequence *)

Definition has_timestamp (e : Entry) : Prop :=
  Py.truthy (published e) = true ∨ Py.truthy (updated e) = true.

Definition lacks_timestamps (e : Entry) : Prop :=
  Py.truthy (published e) = false ∧ Py.truthy (updated e) = false.

(** Non-increasing merge keys. *)
Definition sorted_desc (l : list Entry) : Prop :=
  StronglySorted (λ x y, String.leb (sort_key y) (sort_key x) = true) l.

(** The sources, among the per-source contributions [cs], that contribute an
    entry of merge key [k]. *)
Definition sources_with_key (k : string) (cs : list (list Entry))
  : list (list Entry) :=
  filter (λ c, Exists (λ e, sort_key e = k) c) cs.

(** No merge key occurs in the contributions of two sources. *)
Definition no_shared_key (cs : list (list Entry)) : Prop :=
  ∀ k, (length (sources_with_key k cs) ≤ 1)%nat.

Section Values.
Variable parse : string → ParsedFeed.

(** Every cached object is the parse of its text, up to annotation. *)
Definition store_ok (st : Store) : Prop :=
  ∀ t a, (t, a) ∈ lru st →
    ∃ f, heap st !! a = Some f ∧ feed_evolves (parse t) f.

(** The entries behind the objects one source adds to [parsed_entries], or
    the exception its [try] block ends with: [fetch_source] without the
    store. *)
Definition contribution (num_keep : Z) (res : outcome string)
  : outcome (list Entry) :=
  match res with
  | Raises e => Raises e
  | Returns text =>
      let f := parse text in
      if parse_err f
      then Raises (ParseError (String.append "Parse error: "
                                 (Py.fmt (bozo_exception f))))
      else
        let newest :=
          if num_keep <? 1 then entries f
          else Py.slice_to num_keep (entries f) in
        match newest with
        | [] => Returns []
        | _ :: _ =>
            match fi_link (feed f), fi_title (feed f) with
            | None, _ => Raises (AttributeError "link")
            | Some _, None => Raises (AttributeError "title")
            | Some l, Some t => Returns (annotated (feed f) l t <$> newest)
            end
        end
  end.

Definition contributed (num_keep : Z) (done : string * outcome string)
  : list Entry :=
  match contribution num_keep done.2 with
  | Returns es => es
  | Raises _ => []
  end.

(** [parsed_entries] after the loop, as values. *)
Definition collected (num_keep : Z)
    (completed : list (string * outcome string)) : list Entry :=
  mjoin (contributed num_keep <$> completed).

(** [self._error_urls] after the loop. *)
Definition errors (num_keep : Z) (completed : list (string * outcome string))
    (errs : gmap string Exn) : gmap string Exn :=
  foldl (λ errs done,
           match contribution num_keep done.2 with
           | Returns _ => errs
           | Raises e => <[done.1 := e]> errs
           end) errs completed.

(** What [__fetch_entries] leaves behind, the store apart. *)
Definition after_fetch (fm : FeedMixer)
    (completed : list (string * outcome string)) (st' : Store)
  : outcome unit * Proc :=
  let fm1 := with_error_urls (errors (_num_keep fm) completed ∅) fm in
  match extract_meta (sort_entries (collected (_num_keep fm) completed))
          (prefer_summary fm) with
  | Returns mixed => (Returns tt, mkProc (with_mixed_entries mixed fm1) st')
  | Raises e => (Raises e, mkProc fm1 st')
  end.

(** A source whose fetch fails, or whose text fails to parse. *)
Definition fetch_or_parse_fails (res : outcome string) : Prop :=
  match res with
  | Raises _ => True
  | Returns text => parse_err (parse text) = true
  end.

End Values.

(** Run the pipeline, then read what it stored and hand it to [k]. *)
Definition refetch {A} (parse : string → ParsedFeed) (net : Network)
    (k : list Metadata → A) : M Proc A :=
  __fetch_entries parse net;; gets (λ p, k (_mixed_entries (self p))).

(** The feed object after [__generate_feed]: the class is called with the
    title, link and description of the mixer, then [add_item] once for each
    canonical entry. *)
Definition generated (cls : GenCls) (fm : FeedMixer) (es : list Metadata)
  : SyndicationFeed :=
  foldl (λ g e, add_item e g)
    (mkSyndicationFeed cls (self_title fm) (self_link fm) (self_desc fm) [])
    es.

(** The canonical sequence of a run of the mixer [fm] on the network [net],
    as a value: what [__fetch_entries] computes into [_mixed_entries]. *)
Definition canonical (parse : string → ParsedFeed) (fm : FeedMixer)
    (net : Network) : outcome (list Metadata) :=
  extract_meta
    (sort_entries
       (collected parse (_num_keep fm) (as_completed net (_feeds fm))))
    (prefer_summary fm).

(** ** Sample feeds *)

Module Demo.

Definition entry (t : string) (pub : option string) : Entry :=
  mkEntry (Some t) None None None None None None pub None None None
    None None None None None.

Definition info (l t : string) : FeedInfo := mkFeedInfo (Some l) (Some t) None.

(** A stand-in for the parser: the text names the feed. *)
Definition parse (text : string) : ParsedFeed :=
  if String.eqb text "A" then
    mkParsedFeed (info "http://a.example" "A")
      [entry "a1" (Some "2020-01-03"); entry "a2" (Some "2020-01-01")]
      false None
  else if String.eqb text "B" then
    mkParsedFeed (info "http://b.example" "B")
      [entry "b1" (Some "2020-01-02")] false None
  else if String.eqb text "P" then
    mkParsedFeed (info "http://p.example" "P") [entry "p1" None] false None
  else if String.eqb text "Q" then
    mkParsedFeed (info "http://q.example" "Q") [entry "q1" None] false None
  else if String.eqb text "C" then
    mkParsedFeed (mkFeedInfo None (Some "C") None) [entry "c1" None] false None
  else
    mkParsedFeed (mkFeedInfo None None None) [] true (Some "syntax error").

(** The URL ["down"] answers 503; any other URL answers its own name. *)
Definition respond (i : nat) (u : string) : outcome string :=
  if String.eqb u "down" then Raises (RequestException "503") else Returns u.

(** Fetches that complete in the order submitted, and in the reverse. *)
Definition in_order : Network := mkNetwork respond (λ i, i).
Definition reversed : Network := mkNetwork respond (λ i, (100 - i)%nat).

Definition mixer (urls : list string) (keep threads : Z) : FeedMixer :=
  mkFeedMixer "Title" "" "" 100 urls keep true threads [] ∅ (mkSession ∅).

Definition proc (urls : list string) (keep : Z) : Proc :=
  mkProc (mixer urls keep 10) empty_store.

(** A stand-in for [writeString]: the title and the number of items. *)
Definition render (gen : SyndicationFeed) : string :=
  String.append (kw_title gen)
    (if decide (add_item_calls gen = []) then " (empty)" else " (items)").

End Demo.

(** Further sample data: a feed with a link and no title, an RSS feed with
    its dates in the RFC 822 form, an entry with a summary and a content
    block, a network on which every fetch fails, and a mixer with a negative
    feed bound. *)
Module Sample.

(** An entry as the parser gives it for an RSS item with a [pubDate]: the
    text of the date under [published], its fields under
    [published_parsed]. *)
Definition dated (t pub : string) (y mo d : Z) : Entry :=
  mkEntry (Some t) None None None None None None (Some pub) None
    (Some (mkTimeTuple y mo d 0 0 0)) None None None None None None.

Definition parse (text : string) : ParsedFeed :=
  if String.eqb text "T" then
    mkParsedFeed (mkFeedInfo (Some "http://t.example") None None)
      [Demo.entry "t1" None; Demo.entry "t2" None] false None
  else if String.eqb text "R" then
    mkParsedFeed (Demo.info "http://r.example" "R")
      [dated "jan7" "Mon, 07 Jan 2019 00:00:00 GMT" 2019 1 7;
       dated "jan1" "Tue, 01 Jan 2019 00:00:00 GMT" 2019 1 1]
      false None
  else Demo.parse text.

(** Every fetch fails, whatever the URL. *)
Definition outage : Network :=
  mkNetwork (λ _ _, Raises (RequestException "503")) (λ i, i).

Definition described : Entry :=
  mkEntry (Some "d") None (Some "short") (Some [mkContentBlock (Some "long")])
    None (Some "http://a.example") (Some "A") None None None None
    None None None None None.

Definition no_metadata : Metadata :=
  mkMetadata "" "" NoDescription None "" "" None None None None None None
    None None.

Definition metadata_of (o : outcome Metadata) : Metadata :=
  match o with
  | Returns m => m
  | Raises _ => no_metadata
  end.

Definition negative_bound : FeedMixer :=
  mkFeedMixer "Title" "" "" (-1) ["A"; "B"; "P"] 3 true 10 [] ∅ (mkSession ∅).

End Sample.

(** * Proofs *)

(** ** Order on strings *)

Lemma str_leb_refl s : String.leb s s = true.
Proof. destruct (String.leb_total s s); done. Qed.

Lemma str_compare_lt s1 s2 : String.compare s1 s2 = Lt ↔ String_as_OT.lt s1 s2.
Proof. apply String_as_OT.cmp_lt. Qed.

Lemma str_leb_trans s1 s2 s3 :
  String.leb s1 s2 = true → String.leb s2 s3 = true → String.leb s1 s3 = true.
Proof.
  unfold String.leb.
  destruct (String.compare s1 s2) eqn:H12; [ | | done].
  - apply String.compare_eq_iff in H12. by subst.
  - destruct (String.compare s2 s3) eqn:H23; [ | | done].
    + apply String.compare_eq_iff in H23. subst. by rewrite H12.
    + intros _ _. apply str_compare_lt in H12, H23.
      assert (H13 : String.compare s1 s3 = Lt)
        by (apply str_compare_lt; eapply String_as_OT.lt_trans; eauto).
      by rewrite H13.
Qed.

Lemma str_leb_empty s : String.leb "" s = true.
Proof. by destruct s. Qed.

Lemma str_leb_empty_inv s : String.leb s "" = true → s = "".
Proof. intros H. apply String.leb_antisym; [done | apply str_leb_empty]. Qed.

(** ** Facts about the stable sort *)

Section SortFacts.
Context {A K : Type} (key : A → K) (le : K → K → bool).
Context `{!EqDecision K}.

Hypothesis le_total : ∀ a b, le a b = true ∨ le b a = true.
Hypothesis le_trans : ∀ a b c, le a b = true → le b c = true → le a c = true.

Local Abbreviation before := (Py.before key le).

Lemma le_refl a : le a a = true.
Proof using le_total. by destruct (le_total a a). Qed.

Lemma insert_perm x l : Py.insert key le x l ≡ₚ x :: l.
Proof.
  induction l as [|y l IH]; simpl; [done|].
  destruct (le (key y) (key x)); [done|].
  rewrite IH. apply Permutation_swap.
Qed.

Lemma sort_perm l : Py.sort key le l ≡ₚ l.
Proof.
  induction l as [|x l IH]; simpl; [done|].
  by rewrite insert_perm, IH.
Qed.

Lemma insert_sorted x l :
  StronglySorted before l → StronglySorted before (Py.insert key le x l).
Proof using le_total le_trans.
  induction 1 as [|y l Hl IH Hy]; simpl.
  - repeat constructor.
  - destruct (le (key y) (key x)) eqn:Hle.
    + constructor; [by constructor|].
      constructor; [done|].
      eapply Forall_impl; [exact Hy|].
      unfold Py.before. intros z Hz. eauto.
    + constructor; [done|].
      rewrite insert_perm. constructor; [|done].
      unfold Py.before. destruct (le_total (key y) (key x)); congruence.
Qed.

Lemma sort_sorted l : StronglySorted before (Py.sort key le l).
Proof using le_total le_trans.
  induction l; simpl; [constructor | by apply insert_sorted].
Qed.

(** Stability: the elements of one key keep their input order. *)
Lemma insert_filter_key k x l :
  filter (λ y, key y = k) (Py.insert key le x l)
  = filter (λ y, key y = k) (x :: l).
Proof using le_total.
  induction l as [|y l IH]; simpl; [done|].
  destruct (le (key y) (key x)) eqn:Hle; [done|].
  rewrite filter_cons, IH. rewrite !filter_cons.
  destruct (decide (key y = k)) as [Hy|Hy], (decide (key x = k)) as [Hx|Hx];
    try done.
  rewrite Hy, Hx, le_refl in Hle. done.
Qed.

Lemma sort_filter_key k l :
  filter (λ y, key y = k) (Py.sort key le l) = filter (λ y, key y = k) l.
Proof using le_total.
  induction l as [|x l IH]; simpl; [done|].
  rewrite insert_filter_key, !filter_cons, IH. done.
Qed.

Hypothesis le_antisym : ∀ a b, le a b = true → le b a = true → a = b.

(** A sorted list is determined by its per-key subsequences. *)
Lemma sorted_unique l1 l2 :
  StronglySorted before l1 → StronglySorted before l2 →
  (∀ k, filter (λ y, key y = k) l1 = filter (λ y, key y = k) l2) →
  l1 = l2.
Proof using le_total le_antisym.
  intros H1. revert l2.
  induction H1 as [|a l1 Hl1 IH Ha]; intros l2 H2 Hf.
  - destruct l2 as [|b l2]; [done|].
    specialize (Hf (key b)). rewrite filter_cons in Hf.
    by destruct (decide (key b = key b)).
  - destruct H2 as [|b l2 Hl2 Hb].
    { specialize (Hf (key a)). rewrite filter_cons in Hf.
      by destruct (decide (key a = key a)). }
    assert (Hk : key a = key b).
    { apply le_antisym.
      - assert (Hin : a ∈ b :: l2).
        { eapply (proj1 (list_elem_of_filter (λ y, key y = key a) _ _)).
          rewrite <- Hf. rewrite filter_cons.
          destruct (decide (key a = key a)); [left | done]. }
        apply elem_of_cons in Hin as [->|Hin]; [apply le_refl|].
        rewrite Forall_forall in Hb. by apply Hb.
      - assert (Hin : b ∈ a :: l1).
        { eapply (proj1 (list_elem_of_filter (λ y, key y = key b) _ _)).
          rewrite Hf. rewrite filter_cons.
          destruct (decide (key b = key b)); [left | done]. }
        apply elem_of_cons in Hin as [->|Hin]; [apply le_refl|].
        rewrite Forall_forall in Ha. by apply Ha. }
    assert (a = b) as ->.
    { specialize (Hf (key a)). rewrite !filter_cons in Hf.
      destruct (decide (key a = key a)); [|done].
      destruct (decide (key b = key a)); [|congruence].
      congruence. }
    f_equal. apply IH; [done|].
    intros k. specialize (Hf k). rewrite !filter_cons in Hf.
    destruct (decide (key b = k)); congruence.
Qed.

End SortFacts.

(** ** Entry objects over time *)

Ltac entry_cases e fd :=
  destruct e as [? ? ? ? [?|] ? ? ? ? ? ? ? ? ? ? ?];
  destruct fd as [? ? [?|]];
  cbn in *.

Lemma annotated_set_feed_link fd l t e :
  annotated fd l t (set_feed_link l e) = annotated fd l t e.
Proof. by entry_cases e fd. Qed.

Lemma set_feed_link_idem l e :
  set_feed_link l (set_feed_link l e) = set_feed_link l e.
Proof. by destruct e. Qed.

Lemma set_feed_link_annotated fd l t e :
  set_feed_link l (annotated fd l t e) = annotated fd l t e.
Proof. by entry_cases e fd. Qed.

Lemma annotated_idem fd l t e :
  annotated fd l t (annotated fd l t e) = annotated fd l t e.
Proof. by entry_cases e fd. Qed.

Lemma annotated_feed_link fd l t e : feed_link (annotated fd l t e) = Some l.
Proof. by entry_cases e fd. Qed.

Lemma annotated_feed_title fd l t e : feed_title (annotated fd l t e) = Some t.
Proof. by entry_cases e fd. Qed.

Lemma annotated_sort_key fd l t e : sort_key (annotated fd l t e) = sort_key e.
Proof. by entry_cases e fd. Qed.

Lemma entry_evolves_refl fd e : entry_evolves fd e e.
Proof. by left. Qed.

Lemma entry_evolves_trans fd e1 e2 e3 :
  entry_evolves fd e1 e2 → entry_evolves fd e2 e3 → entry_evolves fd e1 e3.
Proof.
  intros [->|[(l & Hl & ->)|(l & t & Hl & Ht & ->)]]; [done| |];
    intros [->|[(l' & Hl' & ->)|(l' & t' & Hl' & Ht' & ->)]];
    simplify_eq.
  - right; left. eauto.
  - right; left. exists l. by rewrite set_feed_link_idem.
  - right; right. exists l, t'. by rewrite annotated_set_feed_link.
  - right; right. eauto.
  - right; right. exists l, t. by rewrite set_feed_link_annotated.
  - right; right. exists l, t. by rewrite annotated_idem.
Qed.

Lemma entry_evolves_untouched fd e e' : entry_evolves fd e e' → untouched e e'.
Proof.
  intros [->|[(l & Hl & ->)|(l & t & Hl & Ht & ->)]];
    unfold untouched; entry_cases e fd; naive_solver.
Qed.

Lemma entry_evolves_annotated fd l t e e' :
  fi_link fd = Some l → fi_title fd = Some t →
  entry_evolves fd e e' → annotated fd l t e' = annotated fd l t e.
Proof.
  intros Hl Ht [->|[(l' & Hl' & ->)|(l' & t' & Hl' & Ht' & ->)]];
    simplify_eq; [done| |].
  - apply annotated_set_feed_link.
  - apply annotated_idem.
Qed.

Lemma entry_evolves_settled fd l t e e' :
  fi_link fd = Some l → fi_title fd = Some t →
  annotated fd l t e = e → entry_evolves fd e e' → e' = e.
Proof.
  intros Hl Ht He [->|[(l' & Hl' & ->)|(l' & t' & Hl' & Ht' & ->)]];
    simplify_eq; [done| |done].
  rewrite <- He at 1. by rewrite set_feed_link_annotated.
Qed.

Lemma feed_evolves_refl f : feed_evolves f f.
Proof.
  repeat split. apply Forall2_same_length_lookup. split; [done|].
  intros i x y ??. simplify_eq. apply entry_evolves_refl.
Qed.

Lemma feed_evolves_trans f1 f2 f3 :
  feed_evolves f1 f2 → feed_evolves f2 f3 → feed_evolves f1 f3.
Proof.
  intros (Hf & Hb & Hx & He) (Hf' & Hb' & Hx' & He').
  repeat split; [congruence..|].
  rewrite Hf in He'.
  eapply Forall2_trans; [|exact He|exact He'].
  intros ???. apply entry_evolves_trans.
Qed.

Lemma heap_evolves_refl h : heap_evolves h h.
Proof. intros a f Hf. exists f. split; [done | apply feed_evolves_refl]. Qed.

Lemma heap_evolves_trans h1 h2 h3 :
  heap_evolves h1 h2 → heap_evolves h2 h3 → heap_evolves h1 h3.
Proof.
  intros H12 H23 a f Hf.
  destruct (H12 a f Hf) as (f' & Hf' & He).
  destruct (H23 a f' Hf') as (f'' & Hf'' & He').
  exists f''. split; [done|]. by eapply feed_evolves_trans.
Qed.

Lemma heap_evolves_app h fs : heap_evolves h (h ++ fs).
Proof.
  intros a f Hf. exists f. split; [|apply feed_evolves_refl].
  by apply lookup_app_l_Some.
Qed.

(** A settled entry object is not changed by anything that follows. *)
Lemma settled_evolves st st' r :
  heap_evolves (heap st) (heap st') → settled st r →
  settled st' r ∧ read_entry st' r = read_entry st r.
Proof.
  intros Hev (f & e & l & t & Hf & He & Hl & Ht & Hfix).
  destruct (Hev _ _ Hf) as (f' & Hf' & Hfd & _ & _ & Hes).
  destruct (Forall2_lookup_l _ _ _ _ _ Hes He) as (e' & He' & Hee).
  assert (e' = e) as -> by (by eapply entry_evolves_settled).
  split.
  - exists f', e, l, t. rewrite Hfd. done.
  - unfold read_entry, read_feed.
    rewrite (list_lookup_total_correct _ _ _ Hf').
    rewrite (list_lookup_total_correct _ _ _ Hf).
    rewrite (list_lookup_total_correct _ _ _ He').
    by rewrite (list_lookup_total_correct _ _ _ He).
Qed.

(** ** The store *)

Ltac mrun :=
  unfold result, attr, on_store, on_self, try_except in *;
  unfold mbind, M_bind, bind, mret, M_ret, ret, gets, modify, raise in *;
  cbv beta iota in *.

Lemma write_entry_compose r g h st :
  write_entry r g (write_entry r h st) = write_entry r (g ∘ h) st.
Proof.
  unfold write_entry. cbn. f_equal.
  rewrite list_alter_alter_eq. apply list_alter_ext; [|done].
  intros f _. cbn. f_equal. apply list_alter_alter_eq.
Qed.

Lemma write_entry_lookup a i upd st f e :
  heap st !! a = Some f → entries f !! i = Some e →
  heap (write_entry (a, i) upd st) !! a
  = Some (mkParsedFeed (feed f) (<[i := upd e]> (entries f))
            (bozo f) (bozo_exception f)).
Proof.
  intros Hf He. unfold write_entry. cbn.
  rewrite list_lookup_alter_eq, Hf. cbn. do 2 f_equal.
  apply list_eq. intros j. destruct (decide (i = j)) as [->|Hne].
  - rewrite list_lookup_alter_eq, He. cbn.
    rewrite list_lookup_insert_eq; [done|]. by eapply lookup_lt_Some.
  - by rewrite list_lookup_alter_ne, list_lookup_insert_ne.
Qed.

Lemma write_entry_read a i upd st f e :
  heap st !! a = Some f → entries f !! i = Some e →
  read_entry (write_entry (a, i) upd st) (a, i) = upd e.
Proof.
  intros Hf He. unfold read_entry, read_feed. cbn [fst snd].
  rewrite (list_lookup_total_correct _ _ _ (write_entry_lookup _ _ upd _ _ _ Hf He)).
  cbn. apply list_lookup_total_correct.
  apply list_lookup_insert_eq. by eapply lookup_lt_Some.
Qed.

Lemma read_entry_lookup a i st f e :
  heap st !! a = Some f → entries f !! i = Some e → read_entry st (a, i) = e.
Proof.
  intros Hf He. unfold read_entry, read_feed. cbn [fst snd].
  rewrite (list_lookup_total_correct _ _ _ Hf).
  by apply list_lookup_total_correct.
Qed.

Lemma write_entry_evolves a i upd st f e :
  heap st !! a = Some f → entries f !! i = Some e →
  entry_evolves (feed f) e (upd e) →
  heap_evolves (heap st) (heap (write_entry (a, i) upd st)).
Proof.
  intros Hf He Hev a' f' Hf'.
  destruct (decide (a' = a)) as [->|Hne].
  - simplify_eq. eexists. split; [by eapply write_entry_lookup|].
    repeat split. cbn.
    apply Forall2_same_length_lookup. split; [by rewrite length_insert|].
    intros j x y Hx Hy. destruct (decide (i = j)) as [->|Hij].
    + rewrite list_lookup_insert_eq in Hy by (by eapply lookup_lt_Some).
      by simplify_eq.
    + rewrite list_lookup_insert_ne in Hy by done. simplify_eq.
      apply entry_evolves_refl.
  - exists f'. split; [|apply feed_evolves_refl].
    unfold write_entry. cbn. by rewrite list_lookup_alter_ne.
Qed.

Lemma write_entry_ext r g h st :
  (∀ f e, heap st !! r.1 = Some f → entries f !! r.2 = Some e → g e = h e) →
  write_entry r g st = write_entry r h st.
Proof.
  intros Hgh. unfold write_entry. f_equal. apply list_alter_ext; [|done].
  intros f Hf. f_equal. apply list_alter_ext; [|done].
  intros e He. by eapply Hgh.
Qed.

(** The loop body on one entry object. *)
Lemma annotate_spec a i st f e :
  heap st !! a = Some f → entries f !! i = Some e →
  annotate a (a, i) st =
    match fi_link (feed f), fi_title (feed f) with
    | None, _ => (Raises (AttributeError "link"), st)
    | Some l, None =>
        (Raises (AttributeError "title"), write_entry (a, i) (set_feed_link l) st)
    | Some l, Some t =>
        (Returns tt, write_entry (a, i) (annotated (feed f) l t) st)
    end.
Proof.
  intros Hf He. unfold annotate. mrun.
  unfold read_feed. rewrite !(list_lookup_total_correct _ _ _ Hf).
  destruct (fi_link (feed f)) as [l|] eqn:Hl; cbv beta iota; [|done].
  destruct (fi_title (feed f)) as [t|] eqn:Ht; cbv beta iota; [|done].
  rewrite write_entry_compose.
  rewrite (write_entry_read _ _ _ _ _ _ Hf He).
  assert (Had : author_detail ((set_feed_title t ∘ set_feed_link l) e)
                = author_detail e) by (by destruct e).
  rewrite Had.
  destruct (author_detail e) as [ad|] eqn:Hauth;
    [|destruct (fi_author_detail (feed f)) as [ad|] eqn:Hfa];
    rewrite ?write_entry_compose; f_equal; apply write_entry_ext;
    intros f0 e0 Hf0 He0; cbn [fst snd] in *; simplify_eq;
    unfold annotated, fill_author, compose;
    replace (author_detail (set_feed_title t (set_feed_link l e)))
      with (author_detail e) by (by destruct e);
    rewrite Hauth, ?Hfa; done.
Qed.

Lemma for_each_nil {S A} (body : A → M S unit) s :
  for_each [] body s = (Returns tt, s).
Proof. done. Qed.

Lemma for_each_cons {S A} (body : A → M S unit) x l s :
  for_each (x :: l) body s =
    match body x s with
    | (Returns _, s') => for_each l body s'
    | (Raises e, s') => (Raises e, s')
    end.
Proof. done. Qed.

(** The annotation loop over entry objects of the feed at [a]. *)
Lemma for_each_annotate a fd refs :
  ∀ st o st',
    (∃ f, heap st !! a = Some f ∧ feed f = fd
          ∧ Forall (λ r : EntryRef, r.1 = a ∧ (r.2 < length (entries f))%nat)
              refs) →
    for_each refs (annotate a) st = (o, st') →
    lru st' = lru st
    ∧ heap_evolves (heap st) (heap st')
    ∧ match o with
      | Returns _ =>
          refs = []
          ∨ ∃ l t, fi_link fd = Some l ∧ fi_title fd = Some t
                   ∧ Forall (λ r, settled st' r
                                  ∧ read_entry st' r
                                    = annotated fd l t (read_entry st r)) refs
      | Raises e =>
          refs ≠ []
          ∧ match fi_link fd, fi_title fd with
            | None, _ => e = AttributeError "link"
            | Some _, None => e = AttributeError "title"
            | Some _, Some _ => False
            end
      end.
Proof.
  induction refs as [|[a0 i] refs IH]; intros st o st' (f & Hf & Hfd & Hrefs) Hrun.
  { rewrite for_each_nil in Hrun. simplify_eq.
    split; [done|]. split; [apply heap_evolves_refl | by left]. }
  apply Forall_cons in Hrefs as [[Ha Hi] Hrefs]. cbn [fst snd] in Ha, Hi.
  subst a0.
  destruct (lookup_lt_is_Some_2 _ _ Hi) as [e He].
  rewrite for_each_cons, (annotate_spec _ _ _ _ _ Hf He) in Hrun.
  destruct (fi_link (feed f)) as [l|] eqn:Hl.
  2:{ simplify_eq. rewrite Hl. split; [done|].
      split; [apply heap_evolves_refl | done]. }
  destruct (fi_title (feed f)) as [t|] eqn:Ht.
  2:{ simplify_eq. rewrite Hl, Ht. split; [done|]. split; [|done].
      eapply write_entry_evolves; [done..|].
      right; left. eauto. }
  set (st1 := write_entry (a, i) (annotated (feed f) l t) st) in *.
  assert (Hev1 : heap_evolves (heap st) (heap st1)).
  { eapply write_entry_evolves; [done..|]. right; right. eauto. }
  pose proof (write_entry_lookup _ _ (annotated (feed f) l t) _ _ _ Hf He)
    as Hf1. fold st1 in Hf1.
  assert (Hset : settled st1 (a, i)).
  { eexists _, (annotated (feed f) l t e), l, t. cbn [fst snd].
    split; [exact Hf1|]. cbn.
    split; [by apply list_lookup_insert_eq|].
    repeat split; [done..|apply annotated_idem]. }
  assert (Hread1 : ∀ r, r.1 = a → (r.2 < length (entries f))%nat →
            annotated (feed f) l t (read_entry st1 r)
            = annotated (feed f) l t (read_entry st r)).
  { intros [a' i'] ? Hi'. cbn [fst snd] in *. subst a'.
    destruct (lookup_lt_is_Some_2 _ _ Hi') as [e' He'].
    rewrite (read_entry_lookup _ _ _ _ _ Hf He').
    destruct (decide (i' = i)) as [->|Hne].
    - simplify_eq. unfold st1.
      rewrite (write_entry_read _ _ _ _ _ _ Hf He). apply annotated_idem.
    - erewrite read_entry_lookup; [done|exact Hf1|]. cbn.
      by rewrite list_lookup_insert_ne. }
  edestruct (IH st1 o st') as (Hlru & Hev & Ho); [|exact Hrun|].
  { eexists. split; [exact Hf1|]. split; [done|]. cbn.
    by rewrite length_insert. }
  split; [done|]. split; [by eapply heap_evolves_trans|].
  subst fd.
  destruct o as [[]|ex].
  - right. exists l, t. split; [done|]. split; [done|].
    constructor.
    + destruct (settled_evolves _ _ _ Hev Hset) as [? Hr]. split; [done|].
      rewrite Hr. unfold st1.
      rewrite (write_entry_read _ _ _ _ _ _ Hf He).
      by rewrite (read_entry_lookup _ _ _ _ _ Hf He).
    + destruct Ho as [->|(l' & t' & Hl' & Ht' & Hall)]; [constructor|].
      simplify_eq.
      rewrite Forall_forall in Hall, Hrefs. apply Forall_forall.
      intros r Hr. destruct (Hall r Hr) as [? Hread]. split; [done|].
      rewrite Hread. apply Hread1; by apply Hrefs.
  - destruct Ho as [_ Ho]. by rewrite Hl, Ht in Ho.
Qed.

(** ** Slices *)

Lemma slice_to_pos {A} (n : Z) (l : list A) :
  0 ≤ n → Py.slice_to n l = take (Z.to_nat n) l.
Proof. intros Hn. unfold Py.slice_to. by rewrite (proj2 (Z.leb_le 0 n) Hn). Qed.

Lemma slice_to_fmap {A B} (g : A → B) (n : Z) (l : list A) :
  Py.slice_to n (g <$> l) = g <$> Py.slice_to n l.
Proof.
  unfold Py.slice_to. rewrite length_fmap.
  destruct (0 <=? n); by rewrite fmap_take.
Qed.

Lemma slice_to_Forall {A} (P : A → Prop) (n : Z) (l : list A) :
  Forall P l → Forall P (Py.slice_to n l).
Proof. unfold Py.slice_to. destruct (0 <=? n); apply Forall_take. Qed.

Lemma slice_to_Forall2 {A B} (R : A → B → Prop) (n : Z) l1 l2 :
  Forall2 R l1 l2 → Forall2 R (Py.slice_to n l1) (Py.slice_to n l2).
Proof.
  intros H. unfold Py.slice_to. rewrite (Forall2_length _ _ _ H).
  destruct (0 <=? n); by apply Forall2_take.
Qed.

Lemma slice_to_length {A} (n : Z) (l : list A) :
  1 ≤ n → length (Py.slice_to n l) = Z.to_nat (Z.min n (Z.of_nat (length l))).
Proof.
  intros Hn. rewrite slice_to_pos by lia. rewrite length_take. lia.
Qed.

(** ** One source *)

Section SourceFacts.
Variable parse : string → ParsedFeed.

Lemma store_ok_empty : store_ok parse empty_store.
Proof. intros t a Hin. by apply elem_of_nil in Hin. Qed.

Lemma store_ok_evolves st st' :
  store_ok parse st → lru st' = lru st →
  heap_evolves (heap st) (heap st') → store_ok parse st'.
Proof.
  intros Hok Hlru Hev t a Hin. rewrite Hlru in Hin.
  destruct (Hok t a Hin) as (f & Hf & Hpf).
  destruct (Hev a f Hf) as (f' & Hf' & Hff).
  exists f'. split; [done|]. by eapply feed_evolves_trans.
Qed.

Lemma cache_parser_spec text st :
  store_ok parse st →
  ∃ a st' f,
    cache_parser parse text st = (Returns a, st')
    ∧ store_ok parse st'
    ∧ heap_evolves (heap st) (heap st')
    ∧ heap st' !! a = Some f
    ∧ feed_evolves (parse text) f.
Proof.
  intros Hok. unfold cache_parser.
  destruct (list_find _ (lru st)) as [[j [t a]]|] eqn:Hfind.
  - apply list_find_Some in Hfind as (Hj & Ht & _). cbn in Ht. subst t.
    assert (Hin : (text, a) ∈ lru st) by (by eapply list_elem_of_lookup_2).
    destruct (Hok _ _ Hin) as (f & Hf & Hpf).
    eexists a, _, f. split; [done|]. cbn.
    split; [|split; [apply heap_evolves_refl | done]].
    intros t' a' Hin'. cbn in Hin'.
    apply elem_of_cons in Hin' as [?|Hin']; [simplify_eq; eauto|].
    apply Hok. by eapply list_elem_of_delete_inv.
  - eexists (length (heap st)), _, (parse text). split; [done|]. cbn.
    split; [|split; [apply heap_evolves_app|split]].
    + intros t' a' Hin'.
      cbn in Hin'. apply elem_of_cons in Hin' as [?|Hin'].
      * simplify_eq. exists (parse text).
        split; [|apply feed_evolves_refl]. cbn.
        by rewrite lookup_app_r, Nat.sub_diag by lia.
      * eapply elem_of_sublist in Hin'; [|apply sublist_take].
        destruct (Hok _ _ Hin') as (f & Hf & Hpf). exists f.
        split; [cbn; by apply lookup_app_l_Some | done].
    + by rewrite lookup_app_r, Nat.sub_diag by lia.
    + apply feed_evolves_refl.
Qed.

Lemma read_entry_entry_refs st a f :
  heap st !! a = Some f → read_entry st <$> entry_refs a f = entries f.
Proof.
  intros Hf. apply list_eq. intros i. unfold entry_refs.
  rewrite list_lookup_fmap, list_lookup_imap.
  destruct (entries f !! i) as [e|] eqn:He; [|done].
  cbv [fmap option_fmap option_map]. f_equal. by eapply read_entry_lookup.
Qed.

Lemma entry_refs_valid a f :
  Forall (λ r : EntryRef, r.1 = a ∧ (r.2 < length (entries f))%nat)
    (entry_refs a f).
Proof.
  apply Forall_forall. intros r Hr. unfold entry_refs in Hr.
  apply list_elem_of_lookup in Hr as [i Hi].
  rewrite list_lookup_imap in Hi.
  destruct (entries f !! i) as [e|] eqn:He; [|done]. cbn in Hi. simplify_eq.
  split; [done|]. by eapply lookup_lt_Some.
Qed.

Lemma newest_of_valid k a f :
  Forall (λ r : EntryRef, r.1 = a ∧ (r.2 < length (entries f))%nat)
    (newest_of k a f).
Proof.
  unfold newest_of. destruct (k <? 1); [apply entry_refs_valid|].
  apply slice_to_Forall, entry_refs_valid.
Qed.

Lemma read_entry_newest_of st k a f :
  heap st !! a = Some f →
  read_entry st <$> newest_of k a f
  = if k <? 1 then entries f else Py.slice_to k (entries f).
Proof.
  intros Hf. unfold newest_of. destruct (k <? 1).
  - by apply read_entry_entry_refs.
  - by rewrite <- slice_to_fmap, read_entry_entry_refs.
Qed.

Lemma parse_err_evolves f f' : feed_evolves f f' → parse_err f' = parse_err f.
Proof.
  intros (_ & Hb & _ & Hes). unfold parse_err.
  by rewrite Hb, (Forall2_length _ _ _ Hes).
Qed.

(** The [try] block against its value-level reading. *)
Lemma fetch_source_spec k res st :
  store_ok parse st →
  ∃ o st',
    fetch_source parse k res st = (o, st')
    ∧ store_ok parse st'
    ∧ heap_evolves (heap st) (heap st')
    ∧ match contribution parse k res with
      | Returns es =>
          ∃ refs, o = Returns refs ∧ read_entry st' <$> refs = es
                  ∧ Forall (settled st') refs
      | Raises e => o = Raises e
      end.
Proof.
  intros Hok. unfold fetch_source. destruct res as [text|ex]; cbn.
  2:{ mrun. eexists _, _. split; [done|].
      split; [done|]. split; [apply heap_evolves_refl | done]. }
  destruct (cache_parser_spec text st Hok)
    as (a & st1 & f & Hcp & Hok1 & Hev1 & Hf & Hpf).
  mrun. rewrite Hcp. cbv beta iota.
  unfold read_feed. rewrite (list_lookup_total_correct _ _ _ Hf).
  rewrite (parse_err_evolves _ _ Hpf).
  destruct (parse_err (parse text)) eqn:Hperr.
  { destruct Hpf as (_ & _ & -> & _).
    eexists _, _. split; [done|]. eauto. }
  destruct (for_each (newest_of k a f) (annotate a) st1) as [o st'] eqn:Hloop.
  edestruct (for_each_annotate a (feed f) (newest_of k a f) st1 o st')
    as (Hlru & Hev & Ho); [|exact Hloop|].
  { exists f. split; [done|]. split; [done|]. apply newest_of_valid. }
  assert (Hok' : store_ok parse st') by (by eapply store_ok_evolves).
  pose proof (read_entry_newest_of st1 k a f Hf) as Hnew.
  destruct Hpf as (Hfd & _ & _ & Hes).
  assert (Hes' : Forall2 (entry_evolves (feed f))
            (if k <? 1 then entries (parse text)
             else Py.slice_to k (entries (parse text)))
            (if k <? 1 then entries f else Py.slice_to k (entries f))).
  { rewrite Hfd. destruct (k <? 1); [done | by apply slice_to_Forall2]. }
  rewrite <- Hnew in Hes'. rewrite <- Hfd.
  set (newest := if k <? 1 then entries (parse text)
                 else Py.slice_to k (entries (parse text))) in *.
  assert (Hev' : heap_evolves (heap st) (heap st'))
    by (by eapply heap_evolves_trans).
  destruct o as [[]|ex].
  - eexists _, st'. split; [done|]. split; [done|]. split; [done|].
    destruct Ho as [Hnil|(l & t & Hl & Ht & Hall)].
    + rewrite Hnil in Hes' |- *. apply Forall2_nil_inv_r in Hes'.
      rewrite Hes'. exists []. by repeat split.
    + rewrite Hl, Ht.
      assert (Hvals : read_entry st' <$> newest_of k a f
                      = annotated (feed f) l t <$> newest).
      { clearbody newest. clear -Hall Hes' Hl Ht. revert Hall Hes'.
        generalize (newest_of k a f). intros refs Hall.
        revert newest. induction Hall as [|r refs [_ Hr] _ IH]; intros newest Hes.
        - by apply Forall2_nil_inv_r in Hes as ->.
        - apply Forall2_cons_inv_r in Hes as (e0 & es0 & He0 & Hes0 & ->).
          cbn. rewrite Hr. f_equal; [|by apply IH].
          by eapply entry_evolves_annotated. }
      destruct newest as [|e0 newest0] eqn:Hnewest.
      * exists (newest_of k a f). split; [done|].
        split; [by rewrite Hvals|].
        eapply Forall_impl; [exact Hall|]. by intros ? [? _].
      * exists (newest_of k a f). split; [done|]. split; [done|].
        eapply Forall_impl; [exact Hall|]. by intros ? [? _].
  - eexists _, st'. split; [done|]. split; [done|]. split; [done|].
    destruct Ho as [Hne Hex].
    destruct newest as [|e0 newest0] eqn:Hnewest.
    { apply Forall2_nil_inv_l in Hes'. apply fmap_nil_inv in Hes'. done. }
    destruct (fi_link (feed f)); [destruct (fi_title (feed f))|];
      by subst.
Qed.

End SourceFacts.

(** ** The loop over the completed fetches *)

Lemma with_error_urls_id fm : with_error_urls (_error_urls fm) fm = fm.
Proof. by destruct fm. Qed.

Section LoopFacts.
Variable parse : string → ParsedFeed.

Lemma fetch_step_spec k done acc p :
  store_ok parse (store p) → Forall (settled (store p)) acc →
  ∃ acc' st',
    fetch_step parse k done acc p
    = (Returns acc',
       mkProc (with_error_urls
                 (errors parse k [done] (_error_urls (self p))) (self p)) st')
    ∧ store_ok parse st'
    ∧ heap_evolves (heap (store p)) (heap st')
    ∧ Forall (settled st') acc'
    ∧ read_entry st' <$> acc'
      = (read_entry (store p) <$> acc) ++ contributed parse k done.
Proof.
  intros Hok Hacc.
  destruct (fetch_source_spec parse k done.2 (store p) Hok)
    as (o & st' & Hrun & Hok' & Hev & Ho).
  assert (Hkeep : Forall (settled st') acc
                  ∧ read_entry st' <$> acc = read_entry (store p) <$> acc).
  { clear -Hev Hacc. induction Hacc as [|r acc Hr _ [IH1 IH2]]; [done|].
    destruct (settled_evolves _ _ _ Hev Hr) as [? Heq].
    split; [by constructor|]. cbn. by rewrite Heq, IH2. }
  destruct Hkeep as [Hacc' Hread].
  unfold fetch_step, contributed, errors. cbn [foldl].
  mrun. rewrite Hrun.
  destruct (contribution parse k done.2) as [es|ex].
  - destruct Ho as (refs & -> & Hes & Hrefs).
    eexists _, st'. rewrite with_error_urls_id.
    split; [done|]. split; [done|]. split; [done|].
    split; [by apply Forall_app|].
    by rewrite fmap_app, Hread, Hes.
  - subst o. eexists _, st'. split; [done|]. split; [done|]. split; [done|].
    split; [done|]. by rewrite app_nil_r.
Qed.

Lemma errors_app k l1 l2 errs :
  errors parse k (l1 ++ l2) errs = errors parse k l2 (errors parse k l1 errs).
Proof. apply foldl_app. Qed.

Lemma collected_app k l1 l2 :
  collected parse k (l1 ++ l2) = collected parse k l1 ++ collected parse k l2.
Proof. unfold collected. by rewrite fmap_app, join_app. Qed.

Lemma for_fold_fetch_step k completed :
  ∀ acc p,
    store_ok parse (store p) → Forall (settled (store p)) acc →
    ∃ acc' st',
      for_fold completed (fetch_step parse k) acc p
      = (Returns acc',
         mkProc (with_error_urls
                   (errors parse k completed (_error_urls (self p))) (self p))
           st')
      ∧ store_ok parse st'
      ∧ heap_evolves (heap (store p)) (heap st')
      ∧ Forall (settled st') acc'
      ∧ read_entry st' <$> acc'
        = (read_entry (store p) <$> acc) ++ collected parse k completed.
Proof.
  induction completed as [|done completed IH]; intros acc p Hok Hacc.
  { exists acc, (store p). cbn. rewrite with_error_urls_id, app_nil_r.
    destruct p. repeat split; try done. apply heap_evolves_refl. }
  destruct (fetch_step_spec k done acc p Hok Hacc)
    as (acc1 & st1 & Hstep & Hok1 & Hev1 & Hacc1 & Hread1).
  set (fm1 := with_error_urls
                (errors parse k [done] (_error_urls (self p))) (self p)) in *.
  destruct (IH acc1 (mkProc fm1 st1) Hok1 Hacc1)
    as (acc' & st' & Hrest & Hok' & Hev' & Hacc' & Hread').
  exists acc', st'. cbn [for_fold]. mrun. rewrite Hstep.
  cbn [self store] in *. rewrite Hrest.
  split.
  { change (done :: completed) with ([done] ++ completed).
    by rewrite errors_app. }
  split; [done|]. split; [by eapply heap_evolves_trans|]. split; [done|].
  rewrite Hread', Hread1, <- app_assoc. f_equal.
Qed.

Lemma collect_spec k completed p :
  store_ok parse (store p) →
  ∃ st',
    collect parse k completed p
    = (Returns (collected parse k completed),
       mkProc (with_error_urls
                 (errors parse k completed (_error_urls (self p))) (self p))
         st')
    ∧ store_ok parse st'
    ∧ heap_evolves (heap (store p)) (heap st').
Proof.
  intros Hok.
  destruct (for_fold_fetch_step k completed [] p Hok (Forall_nil_2 _))
    as (acc' & st' & Hrun & Hok' & Hev & _ & Hread).
  exists st'. unfold collect. mrun. rewrite Hrun. cbn [store].
  by rewrite Hread.
Qed.

Lemma fetch_entries_spec net p :
  store_ok parse (store p) → 0 < max_threads (self p) →
  ∃ st',
    __fetch_entries parse net p
    = after_fetch parse (self p) (as_completed net (_feeds (self p))) st'
    ∧ store_ok parse st'
    ∧ heap_evolves (heap (store p)) (heap st').
Proof.
  intros Hok Hpool.
  set (fm0 := with_error_urls ∅ (self p)).
  destruct (collect_spec (_num_keep (self p))
              (as_completed net (_feeds (self p))) (mkProc fm0 (store p)) Hok)
    as (st' & Hrun & Hok' & Hev).
  exists st'. split; [|done].
  unfold __fetch_entries, thread_pool, after_fetch. mrun. cbn [self store].
  assert ((max_threads (self p) <=? 0) = false) as Hpool' by lia.
  replace (max_threads (with_error_urls ∅ (self p))) with (max_threads (self p))
    by done.
  rewrite Hpool'. cbv beta iota.
  change (with_error_urls ∅ (self p)) with fm0.
  change (_num_keep fm0) with (_num_keep (self p)).
  change (_feeds fm0) with (_feeds (self p)).
  rewrite Hrun. cbn [self store].
  change (prefer_summary fm0) with (prefer_summary (self p)).
  change (_error_urls fm0) with (∅ : gmap string Exn).
  destruct (extract_meta _ _); done.
Qed.

Lemma fetch_entries_no_pool net p :
  max_threads (self p) ≤ 0 →
  __fetch_entries parse net p
  = (Raises (ValueError "max_workers must be greater than 0"),
     mkProc (with_error_urls ∅ (self p)) (store p)).
Proof.
  intros Hpool. unfold __fetch_entries, thread_pool. mrun. cbn [self store].
  replace (max_threads (with_error_urls ∅ (self p))) with (max_threads (self p))
    by done.
  by rewrite (proj2 (Z.leb_le _ _) Hpool).
Qed.

End LoopFacts.

(** ** The merge order *)

Lemma sort_key_spec e :
  (Py.truthy (published e) = true → published e = Some (sort_key e))
  ∧ (Py.truthy (published e) = false → Py.truthy (updated e) = true →
     updated e = Some (sort_key e))
  ∧ (lacks_timestamps e → sort_key e = "").
Proof.
  unfold sort_key, lacks_timestamps, Py.or.
  destruct (published e) as [s|]; destruct (updated e) as [s'|]; cbn;
    repeat split; intros; simplify_eq;
    repeat match goal with
           | H : negb ?b = _ |- _ => destruct b eqn:?; cbn in H; simplify_eq
           | H : _ ∧ _ |- _ => destruct H
           end; cbn; try done;
    repeat match goal with
           | |- context [String.eqb ?s ""] => destruct (String.eqb s "") eqn:?
           end; cbn; simplify_eq; done.
Qed.

Lemma has_timestamp_sort_key e : has_timestamp e → sort_key e ≠ "".
Proof.
  destruct (sort_key_spec e) as (Hp & Hu & _).
  intros [H|H] Hk.
  - specialize (Hp H). rewrite Hk in Hp. by rewrite Hp in H.
  - destruct (Py.truthy (published e)) eqn:Hpub.
    + specialize (Hp eq_refl). rewrite Hk in Hp. by rewrite Hp in Hpub.
    + specialize (Hu eq_refl H). rewrite Hk in Hu. by rewrite Hu in H.
Qed.

Lemma sort_entries_sorted es : sorted_desc (sort_entries es).
Proof.
  apply (sort_sorted sort_key String.leb String.leb_total str_leb_trans).
Qed.

Lemma sorted_desc_lookup l i j x y :
  sorted_desc l → l !! i = Some x → l !! j = Some y → (i < j)%nat →
  String.leb (sort_key y) (sort_key x) = true.
Proof.
  intros Hl. revert i j. induction Hl as [|a l Hl IH Ha]; intros i j Hi Hj Hij.
  { by rewrite lookup_nil in Hi. }
  destruct j as [|j]; [lia|]. destruct i as [|i]; cbn in *.
  - simplify_eq. rewrite Forall_forall in Ha. apply Ha.
    by eapply list_elem_of_lookup_2.
  - eapply IH; eauto. lia.
Qed.

Lemma extract_meta_Forall2 es ps ms :
  extract_meta es ps = Returns ms →
  Forall2 (λ e m, extract_one ps e = Returns m) es ms.
Proof.
  revert ms. induction es as [|e es IH]; intros ms Hms; cbn in Hms;
    unfold mbind, outcome_bind, mret, outcome_ret in Hms.
  { simplify_eq. constructor. }
  destruct (extract_one ps e) as [m|] eqn:He; [|done].
  destruct (extract_meta es ps) as [ms'|]; [|done].
  simplify_eq. constructor; [done | by apply IH].
Qed.

(** X23. What the sort of [__fetch_entries] does. The canonical sequence of
    a run is, entry by entry, the merged sequence (the sorted
    [parsed_entries] of the run), and the merged sequence is in
    non-increasing order of the merge key compared as text, by code points:
    the key is the string under [published], else the string under
    [updated], else the empty string, a missing or empty string counting as
    none. The parsed timestamps are not read by the sort. The empty string
    is the smallest key, so an entry with neither string comes after every
    entry with one; the sort permutes its input and keeps the input order
    among the entries of one key. *)
Theorem merged_sequence_order
    (parse : string → ParsedFeed) (net : Network) (p p' : Proc) :
  store_ok parse (store p) →
  __fetch_entries parse net p = (Returns tt, p') →
  ∃ parsed_entries q,
    collect parse (_num_keep (self p)) (as_completed net (_feeds (self p)))
      (mkProc (with_error_urls ∅ (self p)) (store p))
    = (Returns parsed_entries, q)
    ∧ let merged := sort_entries parsed_entries in
      Forall2 (λ e m, extract_one (prefer_summary (self p)) e = Returns m)
        merged (_mixed_entries (self p'))
      ∧ sorted_desc merged
      ∧ merged ≡ₚ parsed_entries
      ∧ (∀ e,
           (Py.truthy (published e) = true → published e = Some (sort_key e))
           ∧ (Py.truthy (published e) = false →
              Py.truthy (updated e) = true → updated e = Some (sort_key e))
           ∧ (lacks_timestamps e → sort_key e = ""))
      ∧ (∀ e s, lacks_timestamps e → String.leb (sort_key e) s = true)
      ∧ (∀ i j x y,
           merged !! i = Some x → merged !! j = Some y →
           has_timestamp x → lacks_timestamps y → (i < j)%nat)
      ∧ (∀ key,
           filter (λ e, sort_key e = key) merged
           = filter (λ e, sort_key e = key) parsed_entries).
Proof.
  intros Hok Hrun.
  destruct (decide (0 < max_threads (self p))) as [Hpool|Hpool].
  2:{ rewrite fetch_entries_no_pool in Hrun by lia. done. }
  destruct (collect_spec parse (_num_keep (self p))
              (as_completed net (_feeds (self p)))
              (mkProc (with_error_urls ∅ (self p)) (store p)) Hok)
    as (st1 & Hcollect & _).
  eexists _, _. split; [exact Hcollect|].
  set (parsed_entries := collected parse _ _) in *.
  intros merged. subst merged.
  split.
  { destruct (fetch_entries_spec parse net p Hok Hpool) as (st' & Hspec & _).
    rewrite Hrun in Hspec. unfold after_fetch in Hspec.
    fold parsed_entries in Hspec.
    destruct (extract_meta (sort_entries parsed_entries) _) as [ms|] eqn:Hms;
      [|done].
    simplify_eq. cbn. by apply extract_meta_Forall2. }
  split; [apply sort_entries_sorted|].
  split; [apply sort_perm|].
  split; [apply sort_key_spec|].
  split.
  { intros e s He. destruct (sort_key_spec e) as (_ & _ & Hk).
    rewrite (Hk He). apply str_leb_empty. }
  split.
  - intros i j x y Hi Hj Hx Hy.
    destruct (decide (i < j)%nat) as [|Hge]; [done|]. exfalso.
    destruct (sort_key_spec y) as (_ & _ & Hk). specialize (Hk Hy).
    assert (Hle : String.leb (sort_key x) (sort_key y) = true).
    { destruct (decide (i = j)) as [->|Hne].
      - simplify_eq. apply str_leb_refl.
      - eapply sorted_desc_lookup;
          [apply sort_entries_sorted | exact Hj | exact Hi | lia]. }
    rewrite Hk in Hle. apply str_leb_empty_inv in Hle.
    by apply has_timestamp_sort_key in Hx.
  - intros key. apply (sort_filter_key sort_key String.leb String.leb_total).
Qed.

(** ** Truncation, failures and their isolation *)

Section SourceClaims.
Variable parse : string → ParsedFeed.

Lemma on_store_run {A} (m : M Store A) p o p' :
  on_store m p = (o, p') ↔ m (store p) = (o, store p') ∧ self p' = self p.
Proof.
  unfold on_store. destruct (m (store p)) as [o1 st1]. split.
  - intros ?. by simplify_eq.
  - intros [? ?]. destruct p'. cbn in *. by simplify_eq.
Qed.





Lemma fails_contribution k res :
  fetch_or_parse_fails parse res → ∃ e, contribution parse k res = Raises e.
Proof.
  destruct res as [text|e]; cbn; [|eauto].
  intros ->. eauto.
Qed.

Lemma errors_is_Some k l errs u :
  is_Some (errs !! u) → is_Some (errors parse k l errs !! u).
Proof.
  revert errs. induction l as [|d l IH]; intros errs Hu; [done|].
  cbn. apply IH. destruct (contribution parse k d.2); [done|].
  destruct (decide (d.1 = u)) as [->|Hne].
  - rewrite lookup_insert_eq. eauto.
  - by rewrite lookup_insert_ne.
Qed.

Lemma errors_agree k l errs1 errs2 u :
  (∀ u', u' ≠ u → errs1 !! u' = errs2 !! u') →
  ∀ u', u' ≠ u → errors parse k l errs1 !! u' = errors parse k l errs2 !! u'.
Proof.
  revert errs1 errs2. induction l as [|d l IH]; intros errs1 errs2 H; [done|].
  cbn. apply IH. destruct (contribution parse k d.2); [done|].
  intros u' Hu'. destruct (decide (d.1 = u')) as [->|Hne].
  - by rewrite !lookup_insert_eq.
  - rewrite !lookup_insert_ne by done. by apply H.
Qed.

(** C3. A source whose fetch or parse fails adds no entry object to
    [parsed_entries] and is recorded in [error_urls] under its URL; the run
    goes on, and it collects exactly the entries it collects without that
    source, with the same error records under every other URL. *)
Theorem failing_source_isolated
    (k : Z) (l1 l2 : list (string * outcome string)) (u : string)
    (res : outcome string) (p : Proc) :
  store_ok parse (store p) →
  fetch_or_parse_fails parse res →
  (∀ parsed_entries q, store_ok parse (store q) →
     ∃ e q', fetch_step parse k (u, res) parsed_entries q
             = (Returns parsed_entries, q')
             ∧ _error_urls (self q') = <[u := e]> (_error_urls (self q)))
  ∧ ∃ es p1 p2,
      collect parse k (l1 ++ (u, res) :: l2) p = (Returns es, p1)
      ∧ collect parse k (l1 ++ l2) p = (Returns es, p2)
      ∧ is_Some (_error_urls (self p1) !! u)
      ∧ (∀ u', u' ≠ u →
           _error_urls (self p1) !! u' = _error_urls (self p2) !! u').
Proof.
  intros Hok Hfail.
  destruct (fails_contribution k res Hfail) as [e He].
  split.
  - intros acc q Hq.
    destruct (fetch_source_spec parse k res (store q) Hq)
      as (o & st' & Hrun & _ & _ & Ho).
    rewrite He in Ho. subst o.
    exists e. eexists. unfold fetch_step. mrun. cbn [fst snd].
    rewrite Hrun. split; done.
  - destruct (collect_spec parse k (l1 ++ (u, res) :: l2) p Hok)
      as (st1 & Hrun1 & _).
    destruct (collect_spec parse k (l1 ++ l2) p Hok) as (st2 & Hrun2 & _).
    eexists _, _, _. split; [exact Hrun1|].
    split.
    { rewrite Hrun2. f_equal. f_equal.
      rewrite !collected_app. f_equal.
      change ((u, res) :: l2) with ([(u, res)] ++ l2).
      rewrite collected_app. unfold collected at 2, contributed. cbn.
      by rewrite He. }
    cbn [self _error_urls with_error_urls].
    change ((u, res) :: l2) with ([(u, res)] ++ l2).
    rewrite !errors_app.
    split.
    + apply errors_is_Some. cbn. rewrite He, lookup_insert_eq. eauto.
    + apply errors_agree. intros u' Hu'. cbn. rewrite He.
      by rewrite lookup_insert_ne.
Qed.

(** C8. A source whose text parses to zero entries with the bozo flag set
    is recorded in [error_urls] with a [ParseError], which no transport
    failure is, and adds nothing to [parsed_entries]. *)
Theorem bozo_without_entries_is_parse_error
    (k : Z) (u text : string) (parsed_entries : list EntryRef) (p : Proc) :
  store_ok parse (store p) →
  entries (parse text) = [] →
  bozo (parse text) = true →
  ∃ p',
    fetch_step parse k (u, Returns text) parsed_entries p
    = (Returns parsed_entries, p')
    ∧ _error_urls (self p') !! u
      = Some (ParseError (String.append "Parse error: "
                            (Py.fmt (bozo_exception (parse text)))))
    ∧ ∀ msg msg', ParseError msg ≠ RequestException msg'.
Proof.
  intros Hok Hes Hbozo.
  destruct (fetch_source_spec parse k (Returns text) (store p) Hok)
    as (o & st' & Hrun & _ & _ & Ho).
  unfold contribution, parse_err in Ho. rewrite Hes, Hbozo in Ho. cbn in Ho.
  subst o. eexists. unfold fetch_step. mrun. cbn [fst snd]. rewrite Hrun.
  split; [done|]. split; [|done].
  cbn. by rewrite lookup_insert_eq.
Qed.

End SourceClaims.

(** ** Completion order *)

Section OrderClaims.
Variable parse : string → ParsedFeed.

Lemma as_completed_perm net1 net2 urls :
  (∀ i u, response net1 i u = response net2 i u) →
  as_completed net1 urls ≡ₚ as_completed net2 urls.
Proof.
  intros Hresp. unfold as_completed.
  rewrite !sort_perm.
  erewrite list_fmap_ext; [done|]. intros _ [i u] _. cbn. by rewrite Hresp.
Qed.

Lemma filter_join_sources (k : string) (cs : list (list Entry)) :
  filter (λ e, sort_key e = k) (mjoin cs)
  = mjoin (filter (λ e, sort_key e = k) <$> sources_with_key k cs).
Proof.
  unfold sources_with_key.
  induction cs as [|c cs IH]; [done|].
  change (mjoin (c :: cs)) with (c ++ mjoin cs).
  rewrite filter_app, IH, filter_cons.
  destruct (decide (Exists (λ e, sort_key e = k) c)) as [Hc|Hc]; [done|].
  apply not_Exists_Forall in Hc; [|intros ?; apply _].
  replace (filter (λ e, sort_key e = k) c) with (@nil Entry); [done|].
  symmetry. induction Hc as [|e c He _ IHc]; [done|].
  rewrite filter_cons. by destruct (decide (sort_key e = k)).
Qed.

Lemma sources_with_key_perm k cs1 cs2 :
  cs1 ≡ₚ cs2 → (length (sources_with_key k cs1) ≤ 1)%nat →
  sources_with_key k cs1 = sources_with_key k cs2.
Proof.
  intros Hperm Hlen.
  assert (Hp : sources_with_key k cs1 ≡ₚ sources_with_key k cs2)
    by (unfold sources_with_key; by rewrite Hperm).
  destruct (sources_with_key k cs1) as [|c [|c' cs]]; cbn in Hlen; [| |lia].
  - by apply Permutation_nil_l in Hp.
  - by apply Permutation_singleton_l in Hp.
Qed.

Lemma sort_entries_perm_eq (cs1 cs2 : list (list Entry)) :
  cs1 ≡ₚ cs2 → no_shared_key cs1 →
  sort_entries (mjoin cs1) = sort_entries (mjoin cs2).
Proof.
  intros Hperm Hkeys.
  apply (sorted_unique sort_key String.leb String.leb_total String.leb_antisym);
    [apply sort_entries_sorted..|].
  intros k. unfold sort_entries.
  rewrite !(sort_filter_key sort_key String.leb String.leb_total).
  rewrite !filter_join_sources.
  by rewrite (sources_with_key_perm k cs1 cs2 Hperm (Hkeys k)).
Qed.

Lemma mixed_entries_unfetched net p :
  _mixed_entries (self p) = [] →
  mixed_entries parse net p = refetch parse net (λ es, es) p.
Proof.
  intros Hnil. unfold mixed_entries, refetch. mrun. by rewrite Hnil.
Qed.

Lemma mixed_entries_cached net p :
  _mixed_entries (self p) ≠ [] →
  mixed_entries parse net p = (Returns (_mixed_entries (self p)), p).
Proof.
  intros Hne. unfold mixed_entries. mrun.
  destruct (_mixed_entries (self p)) as [|e es] eqn:Hes; [done|].
  cbn. by rewrite Hes.
Qed.

(** C4, as amended. For a fixed mixer and fixed per-source outcomes, two
    runs that differ only in the completion order of the fetches collect
    the same entries, and each merged sequence is sorted by the merge key,
    so the two are permutations of each other; they are the same sequence,
    and the read returns the same canonical sequence, whenever no merge key
    occurs in the contributions of two different sources. *)
Theorem completion_order_up_to_ties (net1 net2 : Network) (p : Proc) :
  store_ok parse (store p) →
  (∀ i u, response net1 i u = response net2 i u) →
  let k := _num_keep (self p) in
  let completed1 := as_completed net1 (_feeds (self p)) in
  let completed2 := as_completed net2 (_feeds (self p)) in
  ∃ es1 es2 p1 p2,
    collect parse k completed1 p = (Returns es1, p1)
    ∧ collect parse k completed2 p = (Returns es2, p2)
    ∧ sorted_desc (sort_entries es1)
    ∧ sorted_desc (sort_entries es2)
    ∧ sort_entries es1 ≡ₚ sort_entries es2
    ∧ (no_shared_key (contributed parse k <$> completed1) →
       sort_entries es1 = sort_entries es2
       ∧ (mixed_entries parse net1 p).1 = (mixed_entries parse net2 p).1).
Proof.
  intros Hok Hresp k completed1 completed2.
  pose proof (as_completed_perm net1 net2 (_feeds (self p)) Hresp) as Hperm.
  fold completed1 completed2 in Hperm.
  destruct (collect_spec parse k completed1 p Hok) as (st1 & Hrun1 & _).
  destruct (collect_spec parse k completed2 p Hok) as (st2 & Hrun2 & _).
  eexists _, _, _, _. split; [exact Hrun1|]. split; [exact Hrun2|].
  split; [apply sort_entries_sorted|]. split; [apply sort_entries_sorted|].
  assert (Hcs : contributed parse k <$> completed1
                ≡ₚ contributed parse k <$> completed2) by (by rewrite Hperm).
  split.
  { unfold sort_entries. rewrite !sort_perm. unfold collected. by rewrite Hcs. }
  intros Hkeys.
  assert (Heq : sort_entries (collected parse k completed1)
                = sort_entries (collected parse k completed2))
    by (by apply sort_entries_perm_eq).
  split; [done|].
  destruct (decide (_mixed_entries (self p) = [])) as [Hnil|Hne].
  2:{ by rewrite !mixed_entries_cached. }
  rewrite !mixed_entries_unfetched by done. unfold refetch. mrun.
  destruct (decide (0 < max_threads (self p))) as [Hpool|Hpool].
  - destruct (fetch_entries_spec parse net1 p Hok Hpool) as (s1 & -> & _).
    destruct (fetch_entries_spec parse net2 p Hok Hpool) as (s2 & -> & _).
    unfold after_fetch. fold k completed1 completed2. rewrite Heq.
    by destruct (extract_meta _ _).
  - by rewrite !fetch_entries_no_pool by lia.
Qed.

End OrderClaims.

(** ** The mixer as a state machine *)

Lemma feed_evolves_untouched f f' :
  feed_evolves f f' →
  feed f' = feed f ∧ bozo f' = bozo f ∧ bozo_exception f' = bozo_exception f
  ∧ Forall2 untouched (entries f) (entries f').
Proof.
  intros (Hf & Hb & Hx & Hes). repeat split; try done.
  eapply Forall2_impl; [exact Hes|]. intros e e'. apply entry_evolves_untouched.
Qed.

Section MixerClaims.
Variable parse : string → ParsedFeed.
Variable default_headers : gmap string string.
Variable writeString : SyndicationFeed → string.

Lemma refetch_spec {A} net (k : list Metadata → A) p :
  store_ok parse (store p) → 0 < max_threads (self p) →
  (refetch parse net k p).1
  = match canonical parse (self p) net with
    | Returns es => Returns (k es)
    | Raises e => Raises e
    end.
Proof.
  intros Hok Hpool. unfold refetch. mrun.
  destruct (fetch_entries_spec parse net p Hok Hpool) as (st' & -> & _).
  unfold after_fetch, canonical. by destruct (extract_meta _ _).
Qed.

Lemma generate_feed_unfetched cls net p :
  _mixed_entries (self p) = [] →
  __generate_feed parse cls net p
  = refetch parse net (generated cls (self p)) p.
Proof.
  intros Hnil. unfold __generate_feed, mixed_entries, refetch, generated.
  mrun. rewrite Hnil. cbn.
  by destruct (__fetch_entries parse net p) as [[[]|e] p'].
Qed.

Lemma store_ok_after_read net p :
  store_ok parse (store p) →
  store_ok parse (store (mixed_entries parse net p).2).
Proof.
  intros Hok.
  destruct (decide (_mixed_entries (self p) = [])) as [Hnil|Hne].
  2:{ by rewrite mixed_entries_cached. }
  rewrite mixed_entries_unfetched by done. unfold refetch. mrun.
  destruct (decide (0 < max_threads (self p))) as [Hpool|Hpool].
  - destruct (fetch_entries_spec parse net p Hok Hpool) as (st' & -> & Hok' & _).
    unfold after_fetch. by destruct (extract_meta _ _).
  - by rewrite fetch_entries_no_pool by lia.
Qed.

(** C5. On a mixer that holds a cached result, a read returns the cached
    entries without fetching; assigning [feeds] or [num_keep] empties the
    cache, and the next read of [mixed_entries] runs the pipeline on the new
    configuration and returns what that run computes. *)
Theorem reassignment_invalidates_cache
    (net : Network) (p : Proc) (value : list string) (k : Z) :
  _mixed_entries (self p) ≠ [] →
  mixed_entries parse net p = (Returns (_mixed_entries (self p)), p)
  ∧ (∃ p1,
       feeds_setter value p = (Returns tt, p1)
       ∧ _feeds (self p1) = Py.slice_to (max_feeds (self p)) value
       ∧ _mixed_entries (self p1) = []
       ∧ mixed_entries parse net p1 = refetch parse net (λ es, es) p1
       ∧ (store_ok parse (store p) → 0 < max_threads (self p) →
          (mixed_entries parse net p1).1 = canonical parse (self p1) net))
  ∧ (∃ p2,
       num_keep_setter k p = (Returns tt, p2)
       ∧ _num_keep (self p2) = k
       ∧ _mixed_entries (self p2) = []
       ∧ mixed_entries parse net p2 = refetch parse net (λ es, es) p2
       ∧ (store_ok parse (store p) → 0 < max_threads (self p) →
          (mixed_entries parse net p2).1 = canonical parse (self p2) net)).
Proof.
  intros Hne. split; [by apply mixed_entries_cached|].
  split.
  - eexists. split; [done|]. cbn [self store].
    split; [done|]. split; [done|].
    split; [by apply mixed_entries_unfetched|].
    intros Hok Hpool. rewrite mixed_entries_unfetched by done.
    rewrite refetch_spec by done. by destruct (canonical _ _ _).
  - eexists. split; [done|]. cbn [self store].
    split; [done|]. split; [done|].
    split; [by apply mixed_entries_unfetched|].
    intros Hok Hpool. rewrite mixed_entries_unfetched by done.
    rewrite refetch_spec by done. by destruct (canonical _ _ _).
Qed.

(** C6, as amended. Reading [error_urls] never runs the pipeline: it
    returns the stored error map and leaves the mixer as it is, and on a
    newly constructed mixer that map is empty. The first read of
    [mixed_entries], or the first rendering call, runs the pipeline, and a
    read of [error_urls] after the read of [mixed_entries] returns the error
    records of that run. *)
Theorem error_urls_reads_stored_map
    (cfg : Config) (net : Network) (p : Proc) :
  error_urls p = (Returns (_error_urls (self p)), p)
  ∧ (∀ fm, __init__ default_headers cfg = Returns fm →
       _error_urls fm = ∅ ∧ _mixed_entries fm = [])
  ∧ (_mixed_entries (self p) = [] →
     mixed_entries parse net p = refetch parse net (λ es, es) p
     ∧ (∀ cls, __generate_feed parse cls net p
               = refetch parse net (generated cls (self p)) p)
     ∧ (store_ok parse (store p) → 0 < max_threads (self p) →
        let p' := (mixed_entries parse net p).2 in
        error_urls p'
        = (Returns (errors parse (_num_keep (self p))
                      (as_completed net (_feeds (self p))) ∅), p'))).
Proof.
  split; [done|]. split.
  { intros fm Hfm. unfold __init__ in Hfm. by simplify_eq. }
  intros Hnil. split; [by apply mixed_entries_unfetched|].
  split; [intros cls; by apply generate_feed_unfetched|].
  intros Hok Hpool p'. subst p'.
  rewrite mixed_entries_unfetched by done. unfold refetch. mrun.
  destruct (fetch_entries_spec parse net p Hok Hpool) as (st' & -> & _).
  unfold after_fetch, error_urls. mrun.
  by destruct (extract_meta _ _).
Qed.

(** C7, as amended. Construction never fails and checks nothing: the mixer
    is built with the concurrency bound as given, and a bound of zero or
    less is reported as a [ValueError] by the thread pool at the first
    fetch, that is at the first read of [mixed_entries] or the first
    rendering call. *)
Theorem construction_never_fails
    (cfg : Config) (net : Network) (st : Store) :
  ∃ fm,
    __init__ default_headers cfg = Returns fm
    ∧ max_threads fm = cfg_max_threads cfg
    ∧ (cfg_max_threads cfg ≤ 0 →
       (mixed_entries parse net (mkProc fm st)).1
       = Raises (ValueError "max_workers must be greater than 0")
       ∧ ∀ cls,
           (__generate_feed parse cls net (mkProc fm st)).1
           = Raises (ValueError "max_workers must be greater than 0")).
Proof.
  eexists. split; [done|]. split; [done|].
  intros Hpool. split.
  - rewrite mixed_entries_unfetched by done. unfold refetch. mrun.
    by rewrite fetch_entries_no_pool.
  - intros cls. rewrite generate_feed_unfetched by done. unfold refetch. mrun.
    by rewrite fetch_entries_no_pool.
Qed.

(** C9, as amended. A pipeline run keeps every parsed feed object in the
    store, with its feed-level metadata, its bozo flag and exception, the
    number and order of its entries, and every key of every entry other than
    [feed_link], [feed_title] and [author_detail]; an [author_detail] that
    is there is kept. What the cache hands to the next consumer of a text is
    the parser's feed up to those three keys. *)
Theorem cached_feed_changes_only_annotations
    (net : Network) (p p' : Proc) (o : outcome unit) :
  store_ok parse (store p) →
  __fetch_entries parse net p = (o, p') →
  (∀ a f, heap (store p) !! a = Some f →
     ∃ f', heap (store p') !! a = Some f'
           ∧ feed f' = feed f ∧ bozo f' = bozo f
           ∧ bozo_exception f' = bozo_exception f
           ∧ Forall2 untouched (entries f) (entries f'))
  ∧ (∀ text, ∃ a st'' f',
       cache_parser parse text (store p') = (Returns a, st'')
       ∧ heap st'' !! a = Some f'
       ∧ feed f' = feed (parse text) ∧ bozo f' = bozo (parse text)
       ∧ bozo_exception f' = bozo_exception (parse text)
       ∧ Forall2 untouched (entries (parse text)) (entries f')).
Proof.
  intros Hok Hrun.
  assert (Hst : store_ok parse (store p')
                ∧ heap_evolves (heap (store p)) (heap (store p'))).
  { destruct (decide (0 < max_threads (self p))) as [Hpool|Hpool].
    - destruct (fetch_entries_spec parse net p Hok Hpool)
        as (st' & Hrun' & Hok' & Hev).
      rewrite Hrun in Hrun'. unfold after_fetch in Hrun'.
      destruct (extract_meta _ _); by simplify_eq.
    - rewrite fetch_entries_no_pool in Hrun by lia. simplify_eq.
      split; [done | apply heap_evolves_refl]. }
  destruct Hst as [Hok' Hev]. split.
  - intros a f Hf. destruct (Hev a f Hf) as (f' & Hf' & Hff).
    exists f'. split; [done|]. by apply feed_evolves_untouched.
  - intros text.
    destruct (cache_parser_spec parse text (store p') Hok')
      as (a & st'' & f' & Hcp & _ & _ & Hf' & Hff).
    exists a, st'', f'. split; [done|]. split; [done|].
    by apply feed_evolves_untouched.
Qed.

(** What a rendering call returns when it has to fetch: the serialized feed
    of the canonical sequence of the run, or the exception of the run. *)
Lemma feed_method_unfetched cls net p :
  _mixed_entries (self p) = [] →
  store_ok parse (store p) → 0 < max_threads (self p) →
  ((gen ← __generate_feed parse cls net; mret (writeString gen)) p).1
  = (es ← canonical parse (self p) net;
     mret (writeString (generated cls (self p) es))).
Proof.
  intros Hnil Hok Hpool.
  unfold mbind at 1, M_bind at 1, bind at 1.
  rewrite generate_feed_unfetched by done.
  pose proof (refetch_spec net (generated cls (self p)) p Hok Hpool) as Hre.
  destruct (refetch parse net (generated cls (self p)) p) as [[gen|e] q];
    cbn [fst] in *; destruct (canonical parse (self p) net);
    by simplify_eq.
Qed.

(** C10. A run that ends with an empty canonical sequence leaves the mixer
    with nothing cached: every later read of [mixed_entries] and every call
    of [atom_feed], [rss_feed] or [json_feed] runs the whole pipeline again,
    with the settings of the first run and on the network as it is then. The
    read returns the canonical sequence of the new run and stores it,
    [error_urls] holds the failures of the new run, and the feed methods
    return the serialized feed of the new run's sequence. *)
Theorem empty_result_is_refetched
    (net0 : Network) (p0 p : Proc) :
  store_ok parse (store p0) →
  __fetch_entries parse net0 p0 = (Returns tt, p) →
  _mixed_entries (self p) = [] →
  ∀ net,
    (mixed_entries parse net p = refetch parse net (λ es, es) p
     ∧ atom_feed parse writeString net p
       = refetch parse net
           (λ es, writeString (generated Atom1Feed (self p) es)) p
     ∧ rss_feed parse writeString net p
       = refetch parse net
           (λ es, writeString (generated Rss201rev2Feed (self p) es)) p
     ∧ json_feed parse writeString net p
       = refetch parse net
           (λ es, writeString (generated JSONFeed (self p) es)) p)
    ∧ canonical parse (self p) net = canonical parse (self p0) net
    ∧ (mixed_entries parse net p).1 = canonical parse (self p) net
    ∧ (∀ es, canonical parse (self p) net = Returns es →
         _mixed_entries (self (mixed_entries parse net p).2) = es)
    ∧ _error_urls (self (mixed_entries parse net p).2)
      = errors parse (_num_keep (self p)) (as_completed net (_feeds (self p))) ∅
    ∧ (atom_feed parse writeString net p).1
      = (es ← canonical parse (self p) net;
         mret (writeString (generated Atom1Feed (self p) es)))
    ∧ (rss_feed parse writeString net p).1
      = (es ← canonical parse (self p) net;
         mret (writeString (generated Rss201rev2Feed (self p) es)))
    ∧ (json_feed parse writeString net p).1
      = (es ← canonical parse (self p) net;
         mret (writeString (generated JSONFeed (self p) es))).
Proof.
  intros Hok0 Hrun Hnil net.
  assert (Hp : store_ok parse (store p) ∧ 0 < max_threads (self p)
               ∧ canonical parse (self p) net = canonical parse (self p0) net).
  { destruct (decide (0 < max_threads (self p0))) as [Hpool|Hpool].
    2:{ rewrite fetch_entries_no_pool in Hrun by lia. done. }
    destruct (fetch_entries_spec parse net0 p0 Hok0 Hpool)
      as (st' & Hspec & Hok' & _).
    rewrite Hrun in Hspec. unfold after_fetch in Hspec.
    destruct (extract_meta _ _); by simplify_eq. }
  destruct Hp as (Hok & Hpool & Hcfg).
  split.
  { split; [by apply mixed_entries_unfetched|].
    unfold atom_feed, rss_feed, json_feed.
    repeat split;
      (unfold mbind at 1, M_bind at 1, bind at 1;
       rewrite generate_feed_unfetched by done;
       unfold refetch; mrun;
       by destruct (__fetch_entries parse net p) as [[[]|e] p']). }
  split; [done|].
  split.
  { rewrite mixed_entries_unfetched by done. rewrite refetch_spec by done.
    by destruct (canonical _ _ _). }
  assert (Hafter : (mixed_entries parse net p).2
                   = (__fetch_entries parse net p).2).
  { rewrite mixed_entries_unfetched by done. unfold refetch. mrun.
    by destruct (__fetch_entries parse net p) as [[[]|e] p']. }
  rewrite Hafter.
  destruct (fetch_entries_spec parse net p Hok Hpool) as (st' & -> & _).
  unfold after_fetch, canonical.
  split.
  { intros es Hes. by rewrite Hes. }
  split.
  { by destruct (extract_meta _ _). }
  unfold atom_feed, rss_feed, json_feed.
  repeat split; by apply feed_method_unfetched.
Qed.

End MixerClaims.

(** ** The claims at sample inputs *)

(** C1. The sort compares the text under [published], not the timestamp.
    An RSS feed gives its dates in the RFC 822 form, which starts with the
    day of the week. A feed whose two entries the parser lists newest
    first, dated Monday 7 January 2019 and Tuesday 1 January 2019, comes out
    of the run oldest first, since ["Tue, ..."] is above ["Mon, ..."] by
    code points: the published dates of the canonical sequence increase. *)
Theorem rfc822_dates_merge_oldest_first :
  let p := Demo.proc ["R"] 3 in
  let jan7 := Sample.dated "jan7" "Mon, 07 Jan 2019 00:00:00 GMT" 2019 1 7 in
  let jan1 := Sample.dated "jan1" "Tue, 01 Jan 2019 00:00:00 GMT" 2019 1 1 in
  entries (Sample.parse "R") = [jan7; jan1]
  ∧ String.leb (sort_key jan7) (sort_key jan1) = true
  ∧ sort_key jan7 ≠ sort_key jan1
  ∧ ∃ m1 m2 d1 d7,
      (mixed_entries Sample.parse Demo.in_order p).1 = Returns [m1; m2]
      ∧ md_title m1 = "jan1" ∧ md_pubdate m1 = Some d1
      ∧ md_title m2 = "jan7" ∧ md_pubdate m2 = Some d7
      ∧ datetime_ltb d1 d7 = true.
Proof.
  split; [reflexivity|]. split; [reflexivity|]. split; [discriminate|].
  eexists _, _, _, _. split; [by vm_compute|].
  repeat split; reflexivity.
Qed.

Lemma merged_sequence_order_witness :
  let p := Demo.proc ["A"; "down"; "B"] 1 in
  let p' := (__fetch_entries Demo.parse Demo.reversed p).2 in
  ∃ parsed_entries q,
    collect Demo.parse (_num_keep (self p))
      (as_completed Demo.reversed (_feeds (self p)))
      (mkProc (with_error_urls ∅ (self p)) (store p))
    = (Returns parsed_entries, q)
    ∧ let merged := sort_entries parsed_entries in
      Forall2 (λ e m, extract_one (prefer_summary (self p)) e = Returns m)
        merged (_mixed_entries (self p'))
      ∧ sorted_desc merged
      ∧ merged ≡ₚ parsed_entries
      ∧ (∀ e,
           (Py.truthy (published e) = true → published e = Some (sort_key e))
           ∧ (Py.truthy (published e) = false →
              Py.truthy (updated e) = true → updated e = Some (sort_key e))
           ∧ (lacks_timestamps e → sort_key e = ""))
      ∧ (∀ e s, lacks_timestamps e → String.leb (sort_key e) s = true)
      ∧ (∀ i j x y,
           merged !! i = Some x → merged !! j = Some y →
           has_timestamp x → lacks_timestamps y → (i < j)%nat)
      ∧ (∀ key,
           filter (λ e, sort_key e = key) merged
           = filter (λ e, sort_key e = key) parsed_entries).
Proof.
  intros p p'.
  apply (merged_sequence_order Demo.parse Demo.reversed p p'
           (store_ok_empty Demo.parse)).
  vm_compute. reflexivity.
Defined.



Lemma failing_source_isolated_witness :
  let p := Demo.proc ["A"; "down"; "B"] 1 in
  let res := Raises (RequestException "503") in
  (∀ parsed_entries q, store_ok Demo.parse (store q) →
     ∃ e q', fetch_step Demo.parse 1 ("down", res) parsed_entries q
             = (Returns parsed_entries, q')
             ∧ _error_urls (self q') = <["down" := e]> (_error_urls (self q)))
  ∧ ∃ es p1 p2,
      collect Demo.parse 1 ([("A", Returns "A")] ++ ("down", res)
                              :: [("B", Returns "B")]) p = (Returns es, p1)
      ∧ collect Demo.parse 1 ([("A", Returns "A")] ++ [("B", Returns "B")]) p
        = (Returns es, p2)
      ∧ is_Some (_error_urls (self p1) !! "down")
      ∧ (∀ u', u' ≠ "down" →
           _error_urls (self p1) !! u' = _error_urls (self p2) !! u').
Proof.
  intros p res.
  apply (failing_source_isolated Demo.parse 1 [("A", Returns "A")]
           [("B", Returns "B")] "down" res p (store_ok_empty Demo.parse)).
  exact I.
Defined.

(** C4, the counterexample. Two sources contribute one entry each, neither
    with a timestamp: the canonical sequence lists them in the order in
    which the two fetches complete. *)
Lemma completion_order_decides_ties :
  let p := Demo.proc ["P"; "Q"] 3 in
  (∀ i u, response Demo.in_order i u = response Demo.reversed i u)
  ∧ (mixed_entries Demo.parse Demo.in_order p).1
    ≠ (mixed_entries Demo.parse Demo.reversed p).1.
Proof.
  split; [done|]. vm_compute. intros H. simplify_eq.
Qed.

Lemma completion_order_up_to_ties_witness :
  let p := Demo.proc ["A"; "B"] 3 in
  let k := _num_keep (self p) in
  let completed1 := as_completed Demo.in_order (_feeds (self p)) in
  let completed2 := as_completed Demo.reversed (_feeds (self p)) in
  ∃ es1 es2 p1 p2,
    collect Demo.parse k completed1 p = (Returns es1, p1)
    ∧ collect Demo.parse k completed2 p = (Returns es2, p2)
    ∧ sorted_desc (sort_entries es1)
    ∧ sorted_desc (sort_entries es2)
    ∧ sort_entries es1 ≡ₚ sort_entries es2
    ∧ (no_shared_key (contributed Demo.parse k <$> completed1) →
       sort_entries es1 = sort_entries es2
       ∧ (mixed_entries Demo.parse Demo.in_order p).1
         = (mixed_entries Demo.parse Demo.reversed p).1).
Proof.
  intros p.
  apply (completion_order_up_to_ties Demo.parse Demo.in_order Demo.reversed p
           (store_ok_empty Demo.parse)).
  reflexivity.
Defined.

Example no_shared_key_sample :
  no_shared_key
    (contributed Demo.parse 3 <$> as_completed Demo.in_order ["A"; "B"]).
Proof.
  intros k. unfold sources_with_key.
  change (contributed Demo.parse 3 <$> as_completed Demo.in_order ["A"; "B"])
    with [annotated (Demo.info "http://a.example" "A") "http://a.example" "A"
            <$> [Demo.entry "a1" (Some "2020-01-03");
                 Demo.entry "a2" (Some "2020-01-01")];
          annotated (Demo.info "http://b.example" "B") "http://b.example" "B"
            <$> [Demo.entry "b1" (Some "2020-01-02")]].
  rewrite !filter_cons, filter_nil.
  repeat case_decide; cbn; try lia.
  repeat match goal with
         | H : Exists _ (_ :: _) |- _ => apply Exists_cons in H as [H|H]
         | H : Exists _ [] |- _ => by apply Exists_nil in H
         | H : Exists _ (_ <$> _) |- _ => cbn in H
         end; cbn in *; simplify_eq.
Qed.

Lemma reassignment_invalidates_cache_witness :
  let p := (mixed_entries Demo.parse Demo.in_order (Demo.proc ["A"] 1)).2 in
  mixed_entries Demo.parse Demo.reversed p = (Returns (_mixed_entries (self p)), p)
  ∧ (∃ p1,
       feeds_setter ["B"] p = (Returns tt, p1)
       ∧ _feeds (self p1) = Py.slice_to (max_feeds (self p)) ["B"]
       ∧ _mixed_entries (self p1) = []
       ∧ mixed_entries Demo.parse Demo.reversed p1
         = refetch Demo.parse Demo.reversed (λ es, es) p1
       ∧ (store_ok Demo.parse (store p) → 0 < max_threads (self p) →
          (mixed_entries Demo.parse Demo.reversed p1).1
          = canonical Demo.parse (self p1) Demo.reversed))
  ∧ (∃ p2,
       num_keep_setter 2 p = (Returns tt, p2)
       ∧ _num_keep (self p2) = 2
       ∧ _mixed_entries (self p2) = []
       ∧ mixed_entries Demo.parse Demo.reversed p2
         = refetch Demo.parse Demo.reversed (λ es, es) p2
       ∧ (store_ok Demo.parse (store p) → 0 < max_threads (self p) →
          (mixed_entries Demo.parse Demo.reversed p2).1
          = canonical Demo.parse (self p2) Demo.reversed)).
Proof.
  intros p.
  apply (reassignment_invalidates_cache Demo.parse Demo.reversed p ["B"] 2).
  vm_compute. discriminate.
Defined.

(** C6, the counterexample. On a mixer that has not fetched, whose one
    source is down, reading [error_urls] returns the empty map and leaves
    the mixer unfetched; the run it did not make records the failure. *)
Lemma error_urls_read_does_not_fetch :
  let p := Demo.proc ["down"] 3 in
  error_urls p = (Returns ∅, p)
  ∧ _error_urls (self (__fetch_entries Demo.parse Demo.in_order p).2)
    = {["down" := RequestException "503"]}
  ∧ (error_urls p).1
    ≠ Returns (_error_urls (self (__fetch_entries Demo.parse Demo.in_order p).2)).
Proof.
  split; [done|]. split; [by vm_compute|].
  vm_compute. intros H. simplify_eq.
Qed.

(** C7, the counterexample. A negative concurrency bound is accepted by the
    constructor; the error comes with the first read. *)
Lemma negative_bound_passes_construction :
  let cfg := mkConfig "Title" "" "" ["A"] 3 true (-1) 100 None in
  ∃ fm,
    __init__ ∅ cfg = Returns fm
    ∧ (mixed_entries Demo.parse Demo.in_order (mkProc fm empty_store)).1
      = Raises (ValueError "max_workers must be greater than 0").
Proof.
  eexists. split; [reflexivity|]. by vm_compute.
Qed.

Lemma bozo_without_entries_is_parse_error_witness :
  let p := Demo.proc ["junk"] 3 in
  ∃ p',
    fetch_step Demo.parse 3 ("junk", Returns "junk") [] p = (Returns [], p')
    ∧ _error_urls (self p') !! "junk"
      = Some (ParseError (String.append "Parse error: "
                (Py.fmt (bozo_exception (Demo.parse "junk")))))
    ∧ ∀ msg msg', ParseError msg ≠ RequestException msg'.
Proof.
  intros p.
  apply (bozo_without_entries_is_parse_error Demo.parse 3 "junk" "junk" [] p
           (store_ok_empty Demo.parse)); reflexivity.
Defined.

(** C9, the counterexample. After one run over the source ["A"], the feed
    object that the cache returns for the same text is not the feed the
    parser produced: its first entry carries [feed_link]. *)
Lemma cached_feed_is_annotated_in_place :
  let p' := (mixed_entries Demo.parse Demo.in_order (Demo.proc ["A"] 1)).2 in
  ∃ a st'',
    cache_parser Demo.parse "A" (store p') = (Returns a, st'')
    ∧ read_feed a st'' ≠ Demo.parse "A"
    ∧ feed_link <$> entries (read_feed a st'') !! 0%nat
      = Some (Some "http://a.example")
    ∧ feed_link <$> entries (Demo.parse "A") !! 0%nat = Some None.
Proof.
  eexists _, _. split; [by vm_compute|].
  split; [|split; by vm_compute].
  vm_compute. intros H. simplify_eq.
Qed.

Lemma cached_feed_changes_only_annotations_witness :
  let p := (mixed_entries Demo.parse Demo.in_order (Demo.proc ["A"] 1)).2 in
  let run := __fetch_entries Demo.parse Demo.reversed p in
  (∀ a f, heap (store p) !! a = Some f →
     ∃ f', heap (store run.2) !! a = Some f'
           ∧ feed f' = feed f ∧ bozo f' = bozo f
           ∧ bozo_exception f' = bozo_exception f
           ∧ Forall2 untouched (entries f) (entries f'))
  ∧ (∀ text, ∃ a st'' f',
       cache_parser Demo.parse text (store run.2) = (Returns a, st'')
       ∧ heap st'' !! a = Some f'
       ∧ feed f' = feed (Demo.parse text) ∧ bozo f' = bozo (Demo.parse text)
       ∧ bozo_exception f' = bozo_exception (Demo.parse text)
       ∧ Forall2 untouched (entries (Demo.parse text)) (entries f')).
Proof.
  intros p run.
  apply (cached_feed_changes_only_annotations Demo.parse Demo.reversed
           p run.2 run.1).
  - apply store_ok_after_read, store_ok_empty.
  - vm_compute. reflexivity.
Defined.

Lemma empty_result_is_refetched_witness :
  let p0 := Demo.proc ["A"; "junk"] 3 in
  let p := (__fetch_entries Demo.parse Sample.outage p0).2 in
  let net := Demo.in_order in
  (_mixed_entries (self p) = []
   ∧ ∃ m1 m2, canonical Demo.parse (self p) net = Returns [m1; m2])
  ∧ (mixed_entries Demo.parse net p = refetch Demo.parse net (λ es, es) p
     ∧ atom_feed Demo.parse Demo.render net p
       = refetch Demo.parse net
           (λ es, Demo.render (generated Atom1Feed (self p) es)) p
     ∧ rss_feed Demo.parse Demo.render net p
       = refetch Demo.parse net
           (λ es, Demo.render (generated Rss201rev2Feed (self p) es)) p
     ∧ json_feed Demo.parse Demo.render net p
       = refetch Demo.parse net
           (λ es, Demo.render (generated JSONFeed (self p) es)) p)
    ∧ canonical Demo.parse (self p) net = canonical Demo.parse (self p0) net
    ∧ (mixed_entries Demo.parse net p).1 = canonical Demo.parse (self p) net
    ∧ (∀ es, canonical Demo.parse (self p) net = Returns es →
         _mixed_entries (self (mixed_entries Demo.parse net p).2) = es)
    ∧ _error_urls (self (mixed_entries Demo.parse net p).2)
      = errors Demo.parse (_num_keep (self p))
          (as_completed net (_feeds (self p))) ∅
    ∧ (atom_feed Demo.parse Demo.render net p).1
      = (es ← canonical Demo.parse (self p) net;
         mret (Demo.render (generated Atom1Feed (self p) es)))
    ∧ (rss_feed Demo.parse Demo.render net p).1
      = (es ← canonical Demo.parse (self p) net;
         mret (Demo.render (generated Rss201rev2Feed (self p) es)))
    ∧ (json_feed Demo.parse Demo.render net p).1
      = (es ← canonical Demo.parse (self p) net;
         mret (Demo.render (generated JSONFeed (self p) es))).
Proof.
  intros p0 p net. split.
  { split; [by vm_compute|]. eexists _, _. by vm_compute. }
  apply (empty_result_is_refetched Demo.parse Demo.render Sample.outage p0 p).
  - apply store_ok_empty.
  - vm_compute. reflexivity.
  - vm_compute. reflexivity.
Defined.

(** * Further properties of the code *)

(** ** The feed list and its bound *)

Lemma slice_to_prefix {A} (n : Z) (l : list A) : Py.slice_to n l `prefix_of` l.
Proof. unfold Py.slice_to. destruct (0 <=? n); apply prefix_take. Qed.

Lemma slice_to_length_any {A} (n : Z) (l : list A) :
  Z.of_nat (length (Py.slice_to n l))
  = if 0 <=? n then Z.min n (Z.of_nat (length l))
    else Z.max 0 (Z.of_nat (length l) + n).
Proof.
  unfold Py.slice_to. destruct (0 <=? n) eqn:Hn; rewrite length_take; lia.
Qed.

(** X1. The constructor and the [feeds] setter keep a prefix of the list they
    are given: its first [max_feeds] URLs when [max_feeds] is not negative,
    and all but its last [-max_feeds] URLs when it is negative. *)
Theorem feeds_are_a_bounded_prefix
    (default_headers : gmap string string) (cfg : Config)
    (value : list string) (fm0 : FeedMixer) :
  (∃ fm, __init__ default_headers cfg = Returns fm
         ∧ max_feeds fm = cfg_max_feeds cfg
         ∧ _feeds fm `prefix_of` cfg_feeds cfg
         ∧ Z.of_nat (length (_feeds fm))
           = if 0 <=? cfg_max_feeds cfg
             then Z.min (cfg_max_feeds cfg) (Z.of_nat (length (cfg_feeds cfg)))
             else Z.max 0 (Z.of_nat (length (cfg_feeds cfg))
                           + cfg_max_feeds cfg))
  ∧ max_feeds (set_feeds value fm0) = max_feeds fm0
  ∧ _feeds (set_feeds value fm0) `prefix_of` value
  ∧ Z.of_nat (length (_feeds (set_feeds value fm0)))
    = if 0 <=? max_feeds fm0
      then Z.min (max_feeds fm0) (Z.of_nat (length value))
      else Z.max 0 (Z.of_nat (length value) + max_feeds fm0).
Proof.
  split.
  - eexists. split; [done|]. cbn. split; [done|].
    split; [apply slice_to_prefix | apply slice_to_length_any].
  - cbn. split; [done|].
    split; [apply slice_to_prefix | apply slice_to_length_any].
Qed.

(** X2. On a mixer whose feed list is within a non-negative [max_feeds] (as
    the constructor and the [feeds] setter leave it), assigning [num_keep]
    changes the keep-count and empties the cache, and nothing else: the feed
    list, the error map and the other settings stay. *)
Theorem num_keep_setter_keeps_feeds (k : Z) (fm : FeedMixer) :
  0 ≤ max_feeds fm →
  Z.of_nat (length (_feeds fm)) ≤ max_feeds fm →
  set_num_keep k fm
  = with_mixed_entries [] (with_num_keep k fm).
Proof.
  intros Hmax Hlen. unfold set_num_keep, set_feeds. cbn.
  rewrite slice_to_pos by done. rewrite take_ge by lia.
  by destruct fm.
Qed.

(** X3. With a negative [max_feeds], every assignment of [num_keep] slices
    the stored feed list again and so drops its last [-max_feeds] URLs. *)
Theorem num_keep_setter_drops_feeds_when_bound_negative
    (k : Z) (fm : FeedMixer) :
  max_feeds fm < 0 →
  _feeds (set_num_keep k fm) `prefix_of` _feeds fm
  ∧ Z.of_nat (length (_feeds (set_num_keep k fm)))
    = Z.max 0 (Z.of_nat (length (_feeds fm)) + max_feeds fm).
Proof.
  intros Hneg. unfold set_num_keep, set_feeds. cbn.
  split; [apply slice_to_prefix|].
  rewrite slice_to_length_any.
  by rewrite (proj2 (Z.leb_gt 0 (max_feeds fm)) Hneg).
Qed.

(** ** The parse cache *)

Section CacheFacts.
Variable parse : string → ParsedFeed.

Lemma cache_parser_front text st a st' :
  cache_parser parse text st = (Returns a, st') →
  ∃ rest, lru st' = (text, a) :: rest.
Proof.
  unfold cache_parser.
  destruct (list_find _ (lru st)) as [[j [t a0]]|]; intros ?; simplify_eq;
    cbn; eauto.
Qed.

Lemma cache_parser_returns text st :
  ∃ a st', cache_parser parse text st = (Returns a, st').
Proof.
  unfold cache_parser.
  destruct (list_find _ (lru st)) as [[j [t a0]]|]; eauto.
Qed.

(** X4. A text that has just been looked up is a hit: the next lookup of
    the same text returns the same object and changes nothing, neither the
    objects nor the table; the parser is not asked again. *)
Theorem cache_parser_repeat_is_a_hit (text : string) (st : Store) :
  ∃ a st',
    cache_parser parse text st = (Returns a, st')
    ∧ cache_parser parse text st' = (Returns a, st').
Proof.
  destruct (cache_parser_returns text st) as (a & st' & Hrun).
  exists a, st'. split; [done|].
  destruct (cache_parser_front _ _ _ _ Hrun) as [rest Hlru].
  unfold cache_parser. rewrite Hlru. cbn.
  rewrite decide_True by done. cbn. rewrite <- Hlru. by destruct st'.
Qed.

(** X5. The cache table never grows past [maxsize] entries and never holds
    a text twice; a lookup allocates at most one object, and none on a hit,
    and it leaves every object that exists in place. *)
Theorem cache_parser_keeps_table_bounded
    (text : string) (st st' : Store) (a : nat) :
  (length (lru st) ≤ maxsize)%nat →
  NoDup ((lru st).*1) →
  cache_parser parse text st = (Returns a, st') →
  (length (lru st') ≤ maxsize)%nat
  ∧ NoDup ((lru st').*1)
  ∧ (heap st' = heap st
     ∨ ((text ∉ (lru st).*1) ∧ heap st' = heap st ++ [parse text]))
  ∧ (text ∈ ((lru st).*1) → heap st' = heap st).
Proof.
  intros Hlen Hnd. unfold cache_parser.
  destruct (list_find _ (lru st)) as [[j [t a0]]|] eqn:Hfind; intros ?;
    simplify_eq; cbn.
  - apply list_find_Some in Hfind as (Hj & Ht & _). cbn in Ht. subst t.
    pose proof (lookup_lt_Some _ _ _ Hj) as Hlt.
    split; [rewrite (length_delete _ j) by (by eexists); lia|].
    split; [|by split; [left|]].
    rewrite <- (take_drop_middle _ _ _ Hj) in Hnd.
    rewrite delete_take_drop.
    rewrite fmap_app, fmap_cons in Hnd. cbn in Hnd.
    apply NoDup_app in Hnd as (Hnd1 & Hnd2 & Hnd3).
    apply NoDup_cons in Hnd3 as [Hnotin Hnd3].
    rewrite fmap_app. constructor.
    + rewrite elem_of_app. intros [Hin|Hin]; [|done].
      by apply (Hnd2 _ Hin), elem_of_cons; left.
    + apply NoDup_app. split; [done|]. split; [|done].
      intros x Hx Hx'. apply (Hnd2 _ Hx), elem_of_cons. by right.
  - apply list_find_None in Hfind.
    assert (Hnotin : text ∉ (lru st).*1).
    { intros Hin. apply list_elem_of_fmap in Hin as ([t a0] & -> & Hin).
      rewrite Forall_forall in Hfind. by apply (Hfind _ Hin). }
    split; [cbn; rewrite length_take; unfold maxsize; lia|].
    split; [|split; [by right | done]].
    change (S (Nat.pred maxsize)) with maxsize.
    constructor.
    + intros Hin. apply Hnotin. rewrite fmap_take in Hin.
      eapply elem_of_sublist; [exact Hin|]. apply sublist_take.
    + rewrite fmap_take. eapply sublist_NoDup; [exact Hnd | apply sublist_take].
Qed.

(** The table after looking up the texts [ts] in turn. *)
Lemma lookups_keep_recent (text : string) (a : nat) (ts : list string) :
  ∀ st j,
    lru st !! j = Some (text, a) →
    (∀ j' x, lru st !! j' = Some x → (j' < j)%nat → x.1 ≠ text) →
    Forall (λ t, t ≠ text) ts →
    (j + length ts < maxsize)%nat →
    let st' := foldl (λ st t, (cache_parser parse t st).2) st ts in
    ∃ j', (j' ≤ j + length ts)%nat
          ∧ lru st' !! j' = Some (text, a)
          ∧ (∀ i x, lru st' !! i = Some x → (i < j')%nat → x.1 ≠ text).
Proof.
  induction ts as [|t ts IH]; intros st j Hj Hfirst Hts Hlen; cbn in *.
  { exists j. split; [lia|]. done. }
  apply Forall_cons in Hts as [Ht Hts].
  assert (Hstep : ∃ j1, (j1 ≤ S j)%nat
            ∧ lru (cache_parser parse t st).2 !! j1 = Some (text, a)
            ∧ (∀ i x, lru (cache_parser parse t st).2 !! i = Some x →
                 (i < j1)%nat → x.1 ≠ text)).
  { unfold cache_parser.
    destruct (list_find _ (lru st)) as [[i [t0 a0]]|] eqn:Hfind; cbn.
    - apply list_find_Some in Hfind as (Hi & Ht0 & _). cbn in Ht0. subst t0.
      assert (i ≠ j) by (intros ->; by simplify_eq).
      destruct (decide (i < j)%nat) as [Hij|Hij].
      + exists j. split; [lia|]. split.
        * destruct j as [|j]; [lia|].
          change (delete i (lru st) !! j = Some (text, a)).
          rewrite list_lookup_delete_ge by lia. done.
        * intros [|i'] x Hx Hlt; [cbn in Hx; by simplify_eq|].
          change (delete i (lru st) !! i' = Some x) in Hx.
          destruct (decide (i' < i)%nat).
          -- rewrite list_lookup_delete_lt in Hx by done.
             eapply Hfirst; [exact Hx|lia].
          -- rewrite list_lookup_delete_ge in Hx by lia.
             eapply Hfirst; [exact Hx|lia].
      + exists (S j). split; [lia|]. split.
        * change (delete i (lru st) !! j = Some (text, a)).
          by rewrite list_lookup_delete_lt by lia.
        * intros [|i'] x Hx Hlt; [cbn in Hx; by simplify_eq|].
          change (delete i (lru st) !! i' = Some x) in Hx.
          rewrite list_lookup_delete_lt in Hx by lia.
          eapply Hfirst; [exact Hx|lia].
    - exists (S j). split; [lia|]. split.
      + change (take (Nat.pred maxsize) (lru st) !! j = Some (text, a)).
        rewrite lookup_take_lt by (unfold maxsize in *; cbn; lia). done.
      + intros [|i'] x Hx Hlt; [cbn in Hx; by simplify_eq|].
        change (take (Nat.pred maxsize) (lru st) !! i' = Some x) in Hx.
        apply lookup_take_Some in Hx as [Hx _].
        eapply Hfirst; [exact Hx|lia]. }
  destruct Hstep as (j1 & Hj1 & Hlook & Hfirst1).
  destruct (IH _ j1 Hlook Hfirst1 Hts) as (j' & Hj' & Hres); [lia|].
  exists j'. split; [lia | done].
Qed.

(** X6. A cached feed survives the lookups of other texts as long as the
    table has room: after a lookup of [text], and then lookups of up to
    [maxsize - 1] texts other than [text], in any order and with any
    repetition, the next lookup of [text] is a hit on the same object and
    parses nothing. *)
Theorem cache_parser_keeps_recent_texts
    (text : string) (ts : list string) (st st1 : Store) (a : nat) :
  Forall (λ t, t ≠ text) ts →
  (length ts < maxsize)%nat →
  cache_parser parse text st = (Returns a, st1) →
  let st2 := foldl (λ st t, (cache_parser parse t st).2) st1 ts in
  ∃ st3, cache_parser parse text st2 = (Returns a, st3)
         ∧ heap st3 = heap st2.
Proof.
  intros Hts Hlen Hrun st2.
  destruct (cache_parser_front _ _ _ _ Hrun) as [rest Hlru].
  destruct (lookups_keep_recent text a ts st1 0%nat) as (j & _ & Hj & Hfirst);
    [by rewrite Hlru | intros; lia | done | lia |].
  fold st2 in Hj, Hfirst.
  unfold cache_parser.
  assert (Hfind : list_find (λ p : string * nat, p.1 = text) (lru st2)
                  = Some (j, (text, a))).
  { apply list_find_Some. split; [done|]. split; [done|].
    intros i x Hx Hlt. by eapply Hfirst. }
  rewrite Hfind. eauto.
Qed.

End CacheFacts.

(** ** The completed fetches *)

(** X7. Every configured URL is processed exactly once in a run: the
    completed fetches are a rearrangement of the submitted ones, each URL
    paired with the outcome of its own fetch. *)
Theorem as_completed_is_a_rearrangement (net : Network) (urls : list string) :
  as_completed net urls ≡ₚ imap (λ i u, (u, response net i u)) urls
  ∧ (as_completed net urls).*1 ≡ₚ urls
  ∧ length (as_completed net urls) = length urls.
Proof.
  assert (H : as_completed net urls
              ≡ₚ imap (λ i u, (u, response net i u)) urls).
  { unfold as_completed. rewrite sort_perm.
    rewrite fmap_imap. done. }
  split; [done|]. split.
  - rewrite H. rewrite fmap_imap.
    assert (imap (λ n, fst ∘ λ u, (u, response net n u)) urls
            = imap (const (λ u : string, u)) urls) as ->
      by (by apply imap_ext).
    rewrite imap_const.
    change ((λ u : string, u) <$> urls) with (Datatypes.id <$> urls).
    by rewrite list_fmap_id.
  - by rewrite H, length_imap.
Qed.

(** ** Runs of the pipeline *)

Section RunFacts.
Variable parse : string → ParsedFeed.
Variable writeString : SyndicationFeed → string.

Lemma errors_lookup_inv k completed errs u e :
  errors parse k completed errs !! u = Some e →
  errs !! u = Some e
  ∨ ∃ res, (u, res) ∈ completed ∧ contribution parse k res = Raises e.
Proof.
  revert errs. induction completed as [|[u' res] completed IH]; intros errs H.
  { by left. }
  cbn in H. apply IH in H as [H|(res' & Hin & Hres)].
  - destruct (contribution parse k res) as [es|e'] eqn:Hc; [by left|].
    destruct (decide (u' = u)) as [->|Hne].
    + rewrite lookup_insert_eq in H. simplify_eq.
      right. exists res. split; [left | done].
    + rewrite lookup_insert_ne in H by done. by left.
  - right. exists res'. split; [by right | done].
Qed.

Lemma errors_records_raise k completed errs u e :
  (u, Raises e) ∈ completed →
  is_Some (errors parse k completed errs !! u).
Proof.
  revert errs. induction completed as [|d completed IH]; intros errs Hin.
  { by apply elem_of_nil in Hin. }
  apply elem_of_cons in Hin as [<-|Hin]; [|by apply IH].
  cbn. apply errors_is_Some. rewrite lookup_insert_eq. eauto.
Qed.

Lemma as_completed_elem net urls u res :
  (u, res) ∈ as_completed net urls ↔
  ∃ i, urls !! i = Some u ∧ res = response net i u.
Proof.
  destruct (as_completed_is_a_rearrangement net urls) as (H & _ & _).
  rewrite H. rewrite list_elem_of_lookup. split.
  - intros [i Hi]. rewrite list_lookup_imap in Hi.
    destruct (urls !! i) as [v|] eqn:Hv; cbn in Hi; simplify_eq. eauto.
  - intros (i & Hi & ->). exists i. by rewrite list_lookup_imap, Hi.
Qed.

(** X8. After a run, every URL under which [error_urls] holds an exception
    is one of the configured feeds; and every configured feed whose fetch
    raised is in [error_urls], whatever happens to the other feeds. *)
Theorem error_urls_name_failed_feeds
    (net : Network) (p p' : Proc) (o : outcome unit) :
  store_ok parse (store p) →
  __fetch_entries parse net p = (o, p') →
  (∀ u, is_Some (_error_urls (self p') !! u) → u ∈ _feeds (self p))
  ∧ (0 < max_threads (self p) →
     ∀ i u e, _feeds (self p) !! i = Some u →
              response net i u = Raises e →
              is_Some (_error_urls (self p') !! u)).
Proof.
  intros Hok Hrun.
  destruct (decide (0 < max_threads (self p))) as [Hpool|Hpool].
  - destruct (fetch_entries_spec parse net p Hok Hpool) as (st' & Hspec & _).
    rewrite Hrun in Hspec. unfold after_fetch in Hspec.
    assert (Herrs : _error_urls (self p')
                    = errors parse (_num_keep (self p))
                        (as_completed net (_feeds (self p))) ∅).
    { destruct (extract_meta _ _); by simplify_eq. }
    rewrite Herrs. split.
    + intros u [e He].
      apply errors_lookup_inv in He as [He|(res & Hin & _)];
        [by rewrite lookup_empty in He|].
      apply as_completed_elem in Hin as (i & Hi & _).
      by eapply list_elem_of_lookup_2.
    + intros _ i u e Hi Hres. eapply (errors_records_raise _ _ _ _ e).
      apply as_completed_elem. exists i. by rewrite Hres.
  - rewrite fetch_entries_no_pool in Hrun by lia. simplify_eq. cbn.
    split; [|lia]. intros u [e He]. by rewrite lookup_empty in He.
Qed.

Lemma contributed_length k d :
  1 ≤ k → (length (contributed parse k d) ≤ Z.to_nat k)%nat.
Proof.
  intros Hk. unfold contributed, contribution.
  destruct d.2 as [text|e]; cbn; [|lia].
  destruct (parse_err (parse text)); cbn; [lia|].
  assert ((k <? 1) = false) as -> by lia.
  pose proof (slice_to_length k (entries (parse text)) Hk) as Hlen.
  destruct (Py.slice_to k (entries (parse text))) as [|e0 es] eqn:Hs;
    cbn; [lia|].
  destruct (fi_link _); [destruct (fi_title _)|]; cbn; try lia.
  rewrite length_fmap. cbn in Hlen. lia.
Qed.

Lemma collected_length k completed :
  1 ≤ k →
  (length (collected parse k completed) ≤ Z.to_nat k * length completed)%nat.
Proof.
  intros Hk. unfold collected.
  induction completed as [|d completed IH]; cbn; [lia|].
  rewrite length_app, Nat.mul_succ_r, (Nat.add_comm (_ * _)).
  apply Nat.add_le_mono; [by apply contributed_length | exact IH].
Qed.

(** X9. With a keep-count [k >= 1], a run that completes stores at most
    [k] canonical entries per configured feed. *)
Theorem mixed_entries_count_is_bounded
    (net : Network) (p p' : Proc) :
  store_ok parse (store p) →
  1 ≤ _num_keep (self p) →
  __fetch_entries parse net p = (Returns tt, p') →
  Z.of_nat (length (_mixed_entries (self p')))
  ≤ _num_keep (self p) * Z.of_nat (length (_feeds (self p))).
Proof.
  intros Hok Hk Hrun.
  destruct (decide (0 < max_threads (self p))) as [Hpool|Hpool].
  2:{ by rewrite fetch_entries_no_pool in Hrun by lia. }
  destruct (fetch_entries_spec parse net p Hok Hpool) as (st' & Hspec & _).
  rewrite Hrun in Hspec. unfold after_fetch in Hspec.
  destruct (extract_meta _ _) as [ms|] eqn:Hms; [|done]. simplify_eq. cbn.
  apply extract_meta_Forall2, Forall2_length in Hms. rewrite <- Hms.
  unfold sort_entries. rewrite sort_perm.
  pose proof (collected_length (_num_keep (self p))
                (as_completed net (_feeds (self p))) Hk) as Hlen.
  destruct (as_completed_is_a_rearrangement net (_feeds (self p)))
    as (_ & _ & Hn).
  rewrite Hn in Hlen. nia.
Qed.

(** X10. The cache does not show in the results: two runs of the same mixer
    on the same network, from any two stores that the code can reach, end
    with the same outcome and leave the same mixer. *)
Theorem run_does_not_depend_on_cache (net : Network) (p q : Proc) :
  store_ok parse (store p) →
  store_ok parse (store q) →
  self p = self q →
  (__fetch_entries parse net p).1 = (__fetch_entries parse net q).1
  ∧ self (__fetch_entries parse net p).2 = self (__fetch_entries parse net q).2.
Proof.
  intros Hp Hq Heq.
  destruct (decide (0 < max_threads (self p))) as [Hpool|Hpool].
  - destruct (fetch_entries_spec parse net p Hp Hpool) as (s1 & -> & _).
    rewrite Heq in Hpool.
    destruct (fetch_entries_spec parse net q Hq Hpool) as (s2 & -> & _).
    rewrite Heq. unfold after_fetch. by destruct (extract_meta _ _).
  - rewrite !fetch_entries_no_pool by (rewrite <- ?Heq; lia).
    by rewrite Heq.
Qed.

Lemma for_fold_keeps_settings k completed :
  ∀ acc0 (p0 : Proc) o q,
    for_fold completed (fetch_step parse k) acc0 p0 = (o, q) →
    prefer_summary (self q) = prefer_summary (self p0).
Proof.
  induction completed as [|d completed IH]; intros acc0 p0 o q H.
  - cbn in H. unfold ret in H. by simplify_eq.
  - cbn in H. unfold mbind, M_bind, bind in H.
    destruct (fetch_step _ _ _ _ _) as [[acc1|e1] p1] eqn:Hstep.
    + apply IH in H. rewrite H.
      unfold fetch_step in Hstep. mrun.
      destruct (fetch_source _ _ _ _) as [[refs|e2] st2]; by simplify_eq.
    + simplify_eq. unfold fetch_step in Hstep. mrun.
      destruct (fetch_source _ _ _ _) as [[refs|e2] st2]; by simplify_eq.
Qed.

(** [__fetch_entries] once the loop has run. *)
Lemma fetch_entries_after_collect net p es q :
  0 < max_threads (self p) →
  collect parse (_num_keep (self p)) (as_completed net (_feeds (self p)))
    (mkProc (with_error_urls ∅ (self p)) (store p)) = (Returns es, q) →
  __fetch_entries parse net p
  = match extract_meta (sort_entries es) (prefer_summary (self q)) with
    | Returns mixed =>
        (Returns tt, mkProc (with_mixed_entries mixed (self q)) (store q))
    | Raises e => (Raises e, q)
    end.
Proof.
  intros Hpool Hrun.
  assert (Hps : prefer_summary (self q) = prefer_summary (self p)).
  { unfold collect in Hrun. mrun.
    destruct (for_fold _ _ _ _) as [[acc|e] q1] eqn:Hfold; simplify_eq.
    by apply for_fold_keeps_settings in Hfold. }
  unfold __fetch_entries, thread_pool. mrun. cbn [self store].
  assert ((max_threads (self p) <=? 0) = false) as Hpool' by lia.
  replace (max_threads (with_error_urls ∅ (self p))) with (max_threads (self p))
    by done.
  rewrite Hpool'. cbv beta iota.
  change (_num_keep (with_error_urls ∅ (self p))) with (_num_keep (self p)).
  change (_feeds (with_error_urls ∅ (self p))) with (_feeds (self p)).
  rewrite Hrun.
  change (prefer_summary (with_error_urls ∅ (self p)))
    with (prefer_summary (self p)).
  rewrite Hps. by destruct (extract_meta _ _).
Qed.

Lemma for_fold_all_raise k completed :
  Forall (λ d : string * outcome string, ∃ e, d.2 = Raises e) completed →
  ∀ acc p,
    for_fold completed (fetch_step parse k) acc p
    = (Returns acc,
       mkProc (with_error_urls
                 (errors parse k completed (_error_urls (self p))) (self p))
         (store p)).
Proof.
  induction 1 as [|[u res] completed [e He] _ IH]; intros acc p.
  { cbn. rewrite with_error_urls_id. by destruct p. }
  cbn in He. subst res. cbn [for_fold].
  unfold mbind at 1, M_bind at 1, bind at 1.
  assert (Hstep : fetch_step parse k (u, Raises e) acc p
                  = (Returns acc,
                     mkProc (record_error u e (self p)) (store p))).
  { unfold fetch_step, fetch_source. mrun. done. }
  rewrite Hstep, IH. cbn. done.
Qed.

(** X11. When every fetch of a run raises, nothing is parsed or cached, the
    read returns the empty list without raising, and every configured feed
    is in [error_urls]. *)
Theorem all_fetches_failing_gives_empty_result (net : Network) (p : Proc) :
  0 < max_threads (self p) →
  _mixed_entries (self p) = [] →
  (∀ i u, _feeds (self p) !! i = Some u → ∃ e, response net i u = Raises e) →
  ∃ p',
    mixed_entries parse net p = (Returns [], p')
    ∧ store p' = store p
    ∧ _mixed_entries (self p') = []
    ∧ ∀ u, u ∈ _feeds (self p) → is_Some (_error_urls (self p') !! u).
Proof.
  intros Hpool Hnil Hfail.
  set (completed := as_completed net (_feeds (self p))).
  assert (Hall : Forall (λ d : string * outcome string, ∃ e, d.2 = Raises e)
                   completed).
  { apply Forall_forall. intros [u res] Hin.
    apply as_completed_elem in Hin as (i & Hi & ->). cbn. eauto. }
  assert (Hcollect :
    collect parse (_num_keep (self p)) completed
      (mkProc (with_error_urls ∅ (self p)) (store p))
    = (Returns [],
       mkProc (with_error_urls
                 (errors parse (_num_keep (self p)) completed ∅) (self p))
         (store p))).
  { unfold collect. mrun. by rewrite (for_fold_all_raise _ _ Hall). }
  pose proof (fetch_entries_after_collect net p _ _ Hpool Hcollect) as Hrun.
  cbn in Hrun.
  eexists. rewrite mixed_entries_unfetched by done. unfold refetch. mrun.
  rewrite Hrun. cbn. split; [done|]. split; [done|]. split; [done|].
  intros u Hu. apply list_elem_of_lookup in Hu as [i Hi].
  destruct (Hfail i u Hi) as [e He].
  apply (errors_records_raise _ _ _ _ e), as_completed_elem.
  exists i. by rewrite He.
Qed.

(** X12. Once a read of [mixed_entries] has returned a list that is not
    empty, every later read returns that list and changes nothing, whatever
    the network would answer: nothing is fetched again. *)
Theorem cached_read_is_repeatable
    (net net' : Network) (p p' : Proc) (es : list Metadata) :
  mixed_entries parse net p = (Returns es, p') →
  es ≠ [] →
  mixed_entries parse net' p' = (Returns es, p').
Proof.
  intros Hrun Hne.
  assert (Hes : _mixed_entries (self p') = es).
  { unfold mixed_entries in Hrun. mrun.
    destruct ((if (length (_mixed_entries (self p)) <? 1)%nat
               then __fetch_entries parse net
               else λ s, (Returns tt, s)) p) as [[[]|e] q]; by simplify_eq. }
  rewrite mixed_entries_cached by (by rewrite Hes). by rewrite Hes.
Qed.

Lemma generated_items cls fm es :
  add_item_calls (generated cls fm es) = es
  ∧ gen_cls (generated cls fm es) = cls
  ∧ kw_title (generated cls fm es) = self_title fm
  ∧ kw_link (generated cls fm es) = self_link fm
  ∧ kw_description (generated cls fm es) = self_desc fm.
Proof.
  unfold generated.
  set (g0 := mkSyndicationFeed cls _ _ _ []).
  assert (H : ∀ es g,
            add_item_calls (foldl (λ g e, add_item e g) g es) = add_item_calls g ++ es
            ∧ gen_cls (foldl (λ g e, add_item e g) g es) = gen_cls g
            ∧ kw_title (foldl (λ g e, add_item e g) g es) = kw_title g
            ∧ kw_link (foldl (λ g e, add_item e g) g es) = kw_link g
            ∧ kw_description (foldl (λ g e, add_item e g) g es)
              = kw_description g).
  { clear. induction es as [|e es IH]; intros g; cbn.
    - by rewrite app_nil_r.
    - destruct (IH (add_item e g)) as (-> & -> & -> & -> & ->). cbn.
      by rewrite <- app_assoc. }
  apply (H es g0).
Qed.

(** X13. With a cached result, [__generate_feed] fetches nothing and leaves
    the mixer as it is. It calls the generator class with the title, link
    and description of the mixer as they are, and then [add_item] once for
    each canonical entry, in the order of [mixed_entries], none dropped or
    added; [atom_feed], [rss_feed] and [json_feed] return what
    [writeString] makes of that object. What the generator keeps of its
    arguments is the library's business and is not stated here. *)
Theorem rendering_passes_entries_in_order
    (cls : GenCls) (net : Network) (p : Proc) :
  _mixed_entries (self p) ≠ [] →
  ∃ gen,
    __generate_feed parse cls net p = (Returns gen, p)
    ∧ add_item_calls gen = _mixed_entries (self p)
    ∧ gen_cls gen = cls
    ∧ kw_title gen = self_title (self p)
    ∧ kw_link gen = self_link (self p)
    ∧ kw_description gen = self_desc (self p)
    ∧ (cls = Atom1Feed →
       atom_feed parse writeString net p = (Returns (writeString gen), p))
    ∧ (cls = Rss201rev2Feed →
       rss_feed parse writeString net p = (Returns (writeString gen), p))
    ∧ (cls = JSONFeed →
       json_feed parse writeString net p = (Returns (writeString gen), p)).
Proof.
  intros Hne.
  assert (Hgen : ∀ c, __generate_feed parse c net p
            = (Returns (generated c (self p) (_mixed_entries (self p))), p)).
  { intros c. unfold __generate_feed.
    unfold mbind at 1, M_bind at 1, bind at 1, gets at 1.
    unfold mbind, M_bind, bind. rewrite mixed_entries_cached by done. done. }
  exists (generated cls (self p) (_mixed_entries (self p))).
  split; [apply Hgen|].
  destruct (generated_items cls (self p) (_mixed_entries (self p)))
    as (-> & -> & -> & -> & ->).
  do 5 (split; [done|]).
  unfold atom_feed, rss_feed, json_feed, mbind, M_bind, bind.
  repeat split; intros ->; by rewrite Hgen.
Qed.

End RunFacts.

Section LastError.
Variable parse : string → ParsedFeed.

Lemma errors_unchanged k l errs u :
  Forall (λ d : string * outcome string, d.1 ≠ u) l →
  errors parse k l errs !! u = errs !! u.
Proof.
  intros Hl. revert errs. induction Hl as [|d l Hd _ IH]; intros errs; [done|].
  change (d :: l) with ([d] ++ l). rewrite errors_app, IH.
  cbn. destruct (contribution parse k d.2); [done|].
  by rewrite lookup_insert_ne.
Qed.

(** X14. [error_urls] holds one exception per URL, that of the last failed
    fetch of that URL to complete: after a failed fetch of [u], and with no
    source of the same URL completing later, the exception recorded under
    [u] is the one that fetch raised, whatever was recorded before. *)
Theorem last_failure_of_a_url_is_recorded
    (k : Z) (l1 l2 : list (string * outcome string)) (u : string) (e : Exn)
    (p p' : Proc) (o : outcome (list Entry)) :
  store_ok parse (store p) →
  Forall (λ d : string * outcome string, d.1 ≠ u) l2 →
  collect parse k (l1 ++ (u, Raises e) :: l2) p = (o, p') →
  _error_urls (self p') !! u = Some e.
Proof.
  intros Hok Hl2 Hrun.
  destruct (collect_spec parse k (l1 ++ (u, Raises e) :: l2) p Hok)
    as (st' & Hspec & _).
  rewrite Hrun in Hspec. simplify_eq. cbn [self _error_urls with_error_urls].
  change ((u, Raises e) :: l2) with ([(u, Raises e)] ++ l2).
  rewrite !errors_app, errors_unchanged by done.
  cbn. by rewrite lookup_insert_eq.
Qed.

End LastError.

(** ** Canonical entries *)


(** The result of [extract_one], key by key. *)
Lemma extract_one_returns ps e m :
  extract_one ps e = Returns m →
  md_title m = default "" (title e)
  ∧ md_link m = default "" (link e)
  ∧ md_description m
    = (let s := text_or_none (summary e) in
       let c := first_content (content e) in
       if ps then description_or s c else description_or c s)
  ∧ md_author m
    = (λ ad, mkAuthorMeta (ad_email ad) (ad_name ad) (ad_href ad))
        <$> author_detail e
  ∧ feed_link e = Some (md_feed_link m)
  ∧ feed_title e = Some (md_feed_title m)
  ∧ md_comments m = comments e
  ∧ md_unique_id m = id e
  ∧ md_item_copyright m = license e
  ∧ md_categories m = (fmap (M := list) tag_term <$> tags e)
  ∧ md_enclosure m = md_enclosures m ≫= head.
Proof.
  unfold extract_one, item, mbind, outcome_bind, mret, outcome_ret.
  destruct (feed_link e) as [fl|]; [|done].
  destruct (feed_title e) as [ft|]; [|done].
  destruct (optional datetime_of (published_parsed e)); [|done].
  destruct (optional datetime_of (updated_parsed e)); [|done].
  destruct (optional enclosures_of (enclosures e)); [|done].
  intros ?. simplify_eq. cbn. by repeat split.
Qed.

(** X16. The description of a canonical entry is made of the summary and
    of the content, the content being the value of the first content block,
    or what [e.get('content')] gave when that is [None] or an empty list.
    When both are truthy, [prefer_summary] decides between them; when one
    is, it is the description whatever [prefer_summary] says; when neither
    is, the description is the one that is not preferred, as [or] hands on
    its second operand: with [prefer_summary], no summary and an empty
    content list, it is the empty list. *)
Theorem description_tie_break (ps : bool) (e : Entry) (m : Metadata) :
  extract_one ps e = Returns m →
  let s := text_or_none (summary e) in
  let c := first_content (content e) in
  (description_truthy s = true → description_truthy c = true →
   md_description m = if ps then s else c)
  ∧ (description_truthy s = true → description_truthy c = false →
     md_description m = s)
  ∧ (description_truthy s = false → description_truthy c = true →
     md_description m = c)
  ∧ (description_truthy s = false → description_truthy c = false →
     md_description m = if ps then c else s)
  ∧ (ps = true → description_truthy s = false → content e = Some [] →
     md_description m = EmptyContent).
Proof.
  intros Hm s c. apply extract_one_returns in Hm as (_ & _ & -> & _).
  fold s c. unfold description_or.
  split; [|split; [|split; [|split]]];
    try (intros Hs Hc; rewrite ?Hs, ?Hc; by destruct ps).
  intros -> Hs He. subst c. by rewrite Hs, He.
Qed.

(** X17. An entry that the fetch loop has annotated becomes a canonical
    entry with the link and the title of its feed, and with its own author
    when it has one, else the author of the feed when the feed has one,
    else none. *)
Theorem canonical_entry_inherits_from_feed
    (a i : nat) (st st' : Store) (f : ParsedFeed) (e : Entry)
    (ps : bool) (m : Metadata) :
  heap st !! a = Some f →
  entries f !! i = Some e →
  annotate a (a, i) st = (Returns tt, st') →
  extract_one ps (read_entry st' (a, i)) = Returns m →
  fi_link (feed f) = Some (md_feed_link m)
  ∧ fi_title (feed f) = Some (md_feed_title m)
  ∧ md_author m
    = (λ ad, mkAuthorMeta (ad_email ad) (ad_name ad) (ad_href ad))
        <$> (match author_detail e with
             | Some ad => Some ad
             | None => fi_author_detail (feed f)
             end).
Proof.
  intros Hf He Hrun Hm.
  rewrite (annotate_spec _ _ _ _ _ Hf He) in Hrun.
  destruct (fi_link (feed f)) as [l|] eqn:Hl; [|done].
  destruct (fi_title (feed f)) as [t|] eqn:Ht; [|done].
  simplify_eq.
  rewrite (write_entry_read _ _ _ _ _ _ Hf He) in Hm.
  apply extract_one_returns in Hm as (_ & _ & _ & Hauth & Hfl & Hft & _).
  rewrite annotated_feed_link in Hfl. rewrite annotated_feed_title in Hft.
  simplify_eq. split; [done|]. split; [done|].
  rewrite Hauth. unfold annotated, fill_author.
  destruct e as [? ? ? ? [ad|] ? ? ? ? ? ? ? ? ? ? ?]; cbn; [done|].
  by destruct (fi_author_detail (feed f)).
Qed.

Lemma extract_meta_app es1 es2 ps :
  extract_meta (es1 ++ es2) ps
  = ms1 ← extract_meta es1 ps; ms2 ← extract_meta es2 ps; mret (ms1 ++ ms2).
Proof.
  induction es1 as [|e es1 IH]; cbn.
  - unfold mbind, outcome_bind, mret, outcome_ret.
    by destruct (extract_meta es2 ps).
  - rewrite IH. unfold mbind, outcome_bind, mret, outcome_ret.
    destruct (extract_one ps e); [|done].
    destruct (extract_meta es1 ps); [|done].
    by destruct (extract_meta es2 ps).
Qed.

(** X18. [extract_meta] is all or nothing: it returns one canonical entry
    per parsed entry, in the same order, when every entry can be converted,
    and it raises the exception of the first entry that cannot, whatever
    follows that entry. *)
Theorem extract_meta_is_all_or_nothing
    (es1 es2 : list Entry) (e : Entry) (ps : bool) (x : Exn) :
  Forall (λ e', ∃ m, extract_one ps e' = Returns m) es1 →
  extract_one ps e = Raises x →
  extract_meta (es1 ++ e :: es2) ps = Raises x
  ∧ ∃ ms1, extract_meta es1 ps = Returns ms1 ∧ length ms1 = length es1.
Proof.
  intros Hes1 He.
  assert (H1 : ∃ ms1, extract_meta es1 ps = Returns ms1
                      ∧ length ms1 = length es1).
  { induction Hes1 as [|e' es1 [m Hm] _ (ms & Hms & Hlen)]; cbn.
    - by exists [].
    - unfold mbind, outcome_bind, mret, outcome_ret. rewrite Hm, Hms.
      exists (m :: ms). cbn. by rewrite Hlen. }
  split; [|done]. destruct H1 as (ms1 & Hms1 & _).
  rewrite extract_meta_app, Hms1. cbn.
  unfold mbind, outcome_bind. by rewrite He.
Qed.

Lemma optional_raises {A B} (f : A → outcome B) x ex :
  optional f x = Raises ex → ∃ a, x = Some a ∧ f a = Raises ex.
Proof.
  destruct x as [a|]; cbn; [|done].
  unfold mbind, outcome_bind, mret, outcome_ret.
  destruct (f a) eqn:Hf; intros ?; simplify_eq. eauto.
Qed.

Lemma datetime_of_raises tp ex :
  datetime_of tp = Raises ex → ∃ msg, ex = ValueError msg.
Proof.
  unfold datetime_of, datetime_new.
  repeat (destruct (negb _); [intros ?; simplify_eq; eauto|]).
  intros ?. simplify_eq.
Qed.

Lemma enclosures_of_raises encs ex :
  enclosures_of encs = Raises ex → ∃ name, ex = AttributeError name.
Proof.
  induction encs as [|enc encs IH]; cbn; [done|].
  unfold enclosure_of, attr, mbind, outcome_bind, mret, outcome_ret.
  destruct (enc_href enc); [|intros; simplify_eq; eauto].
  destruct (enc_length enc); [|intros; simplify_eq; eauto].
  destruct (enc_type enc); [|intros; simplify_eq; eauto].
  destruct (enclosures_of encs); [done|]. intros ?. simplify_eq. by apply IH.
Qed.

Lemma extract_one_KeyError ps e key :
  extract_one ps e = Raises (KeyError key) →
  feed_link e = None ∨ feed_title e = None.
Proof.
  unfold extract_one, item, mbind, outcome_bind, mret, outcome_ret.
  destruct (feed_link e) as [fl|]; [|by left].
  destruct (feed_title e) as [ft|]; [|by right].
  destruct (optional datetime_of (published_parsed e)) eqn:H1.
  2:{ intros ?. simplify_eq. apply optional_raises in H1 as (? & _ & H1).
      by apply datetime_of_raises in H1 as [? ?]. }
  destruct (optional datetime_of (updated_parsed e)) eqn:H2.
  2:{ intros ?. simplify_eq. apply optional_raises in H2 as (? & _ & H2).
      by apply datetime_of_raises in H2 as [? ?]. }
  destruct (optional enclosures_of (enclosures e)) eqn:H3; [done|].
  intros ?. simplify_eq. apply optional_raises in H3 as (? & _ & H3).
  by apply enclosures_of_raises in H3 as [? ?].
Qed.

Lemma extract_meta_KeyError es ps key :
  extract_meta es ps = Raises (KeyError key) →
  ∃ e, e ∈ es ∧ (feed_link e = None ∨ feed_title e = None).
Proof.
  induction es as [|e es IH]; cbn; [done|].
  unfold mbind, outcome_bind, mret, outcome_ret.
  destruct (extract_one ps e) eqn:He.
  - destruct (extract_meta es ps); [done|]. intros ?. simplify_eq.
    destruct IH as (e' & Hin & H); [done|]. exists e'. split; [by right|done].
  - intros ?. simplify_eq. exists e. split; [by left|].
    by eapply extract_one_KeyError.
Qed.

Section KeyFacts.
Variable parse : string → ParsedFeed.

Lemma contributed_annotated k d e :
  e ∈ contributed parse k d → is_Some (feed_link e) ∧ is_Some (feed_title e).
Proof.
  unfold contributed, contribution.
  destruct d.2 as [text|ex]; [|by intros ?%elem_of_nil].
  destruct (parse_err (parse text)); [by intros ?%elem_of_nil|].
  destruct (if k <? 1 then _ else _) as [|e0 es]; [by intros ?%elem_of_nil|].
  destruct (fi_link _) as [l|]; [|by intros ?%elem_of_nil].
  destruct (fi_title _) as [t|]; [|by intros ?%elem_of_nil].
  intros Hin. apply list_elem_of_fmap in Hin as (e1 & -> & _).
  rewrite annotated_feed_link, annotated_feed_title. eauto.
Qed.

(** X19. Every entry that reaches [extract_meta] in a run has been given
    [feed_link] and [feed_title] by the fetch loop: a run never ends in the
    [KeyError] of a missing [feed_link] or [feed_title]. *)
Theorem run_never_raises_KeyError
    (net : Network) (p p' : Proc) (o : outcome unit) (key : string) :
  store_ok parse (store p) →
  __fetch_entries parse net p = (o, p') →
  o ≠ Raises (KeyError key).
Proof.
  intros Hok Hrun ->.
  destruct (decide (0 < max_threads (self p))) as [Hpool|Hpool].
  2:{ by rewrite fetch_entries_no_pool in Hrun by lia. }
  destruct (fetch_entries_spec parse net p Hok Hpool) as (st' & Hspec & _).
  rewrite Hrun in Hspec. unfold after_fetch in Hspec.
  destruct (extract_meta _ _) as [ms|ex] eqn:Hms; [done|]. simplify_eq.
  apply extract_meta_KeyError in Hms as (e & Hin & Hnone).
  unfold sort_entries in Hin. rewrite sort_perm in Hin.
  unfold collected in Hin. apply list_elem_of_join in Hin as (c & Hin & Hc).
  apply list_elem_of_fmap in Hc as (d & -> & _).
  apply contributed_annotated in Hin as [[? Hl] [? Ht]].
  destruct Hnone; congruence.
Qed.

(** X20. A read of [mixed_entries] that raises leaves the mixer unfetched:
    the cached list was empty and stays empty, so the next read runs the
    pipeline again. *)
Theorem raising_read_leaves_mixer_unfetched
    (net : Network) (p p' : Proc) (x : Exn) :
  store_ok parse (store p) →
  mixed_entries parse net p = (Raises x, p') →
  _mixed_entries (self p) = [] ∧ _mixed_entries (self p') = []
  ∧ ∀ net', mixed_entries parse net' p'
            = refetch parse net' (λ es, es) p'.
Proof.
  intros Hok Hrun.
  destruct (decide (_mixed_entries (self p) = [])) as [Hnil|Hne].
  2:{ by rewrite mixed_entries_cached in Hrun. }
  assert (Hnil' : _mixed_entries (self p') = []).
  { rewrite mixed_entries_unfetched in Hrun by done.
    unfold refetch in Hrun. mrun.
    destruct (decide (0 < max_threads (self p))) as [Hpool|Hpool].
    - destruct (fetch_entries_spec parse net p Hok Hpool) as (st' & Hspec & _).
      rewrite Hspec in Hrun. unfold after_fetch in Hrun.
      destruct (extract_meta _ _); by simplify_eq.
    - rewrite fetch_entries_no_pool in Hrun by lia. by simplify_eq. }
  split; [done|]. split; [done|].
  intros net'. by apply mixed_entries_unfetched.
Qed.

End KeyFacts.

(** ** What a source keeps and writes *)

(** X21. A larger keep-count keeps more of the same entries: for
    [1 <= k <= k'] the entries kept under [k] are the first of those kept
    under [k'], which are the first of all the entries of the feed, kept
    under any keep-count below 1. *)
Theorem newest_grows_with_keep_count
    (k k' k0 : Z) (a : nat) (f : ParsedFeed) :
  1 ≤ k → k ≤ k' → k0 < 1 →
  newest_of k a f `prefix_of` newest_of k' a f
  ∧ newest_of k' a f `prefix_of` newest_of k0 a f
  ∧ newest_of k0 a f = entry_refs a f.
Proof.
  intros Hk Hk' Hk0. unfold newest_of.
  assert ((k <? 1) = false) as -> by lia.
  assert ((k' <? 1) = false) as -> by lia.
  assert ((k0 <? 1) = true) as -> by lia.
  rewrite !slice_to_pos by lia.
  split; [|split; [apply prefix_take | done]].
  replace (take (Z.to_nat k) (entry_refs a f))
    with (take (Z.to_nat k) (take (Z.to_nat k') (entry_refs a f))).
  - apply prefix_take.
  - rewrite take_take. f_equal. lia.
Qed.

Section PartialWrite.
Variable parse : string → ParsedFeed.

(** X22. A parsed feed with a link and no title, and with an entry to keep,
    fails in the annotation of its first entry after [feed_link] has been
    written: the source is recorded with the [AttributeError] for [title],
    no entry is appended, and the cached feed keeps the [feed_link] written
    into its first entry. *)
Theorem missing_title_leaves_link_written
    (k : Z) (u text l : string) (parsed_entries : list EntryRef) (p : Proc) :
  store_ok parse (store p) →
  parse_err (parse text) = false →
  entries (parse text) ≠ [] →
  fi_link (feed (parse text)) = Some l →
  fi_title (feed (parse text)) = None →
  ∃ p' a st'' f',
    fetch_step parse k (u, Returns text) parsed_entries p
    = (Returns parsed_entries, p')
    ∧ _error_urls (self p') !! u = Some (AttributeError "title")
    ∧ cache_parser parse text (store p') = (Returns a, st'')
    ∧ heap st'' !! a = Some f'
    ∧ feed_link <$> entries f' !! 0%nat = Some (Some l).
Proof.
  intros Hok Hperr Hne Hl Ht.
  destruct (cache_parser_spec parse text (store p) Hok)
    as (a & st1 & f & Hcp & Hok1 & _ & Hf & Hpf).
  pose proof (parse_err_evolves _ _ Hpf) as Hperr'.
  destruct Hpf as (Hfd & _ & _ & Hes).
  destruct (entries f) as [|e0 es] eqn:Hentries.
  { apply Forall2_nil_inv_r in Hes. done. }
  assert (Hnewest : ∃ rest, newest_of k a f = (a, 0%nat) :: rest).
  { unfold newest_of, entry_refs. rewrite Hentries. cbn.
    destruct (k <? 1) eqn:Hk; [eauto|].
    rewrite slice_to_pos by lia.
    destruct (Z.to_nat k) as [|n] eqn:Hn; [lia|]. cbn. eauto. }
  destruct Hnewest as [rest Hnewest].
  assert (He0 : entries f !! 0%nat = Some e0) by (by rewrite Hentries).
  pose proof (annotate_spec a 0 st1 f e0 Hf He0) as Hann.
  rewrite Hfd, Hl, Ht in Hann.
  set (st2 := write_entry (a, 0%nat) (set_feed_link l) st1) in *.
  assert (Hsrc : fetch_source parse k (Returns text) (store p)
                 = (Raises (AttributeError "title"), st2)).
  { unfold fetch_source. mrun. rewrite Hcp. cbv beta iota.
    unfold read_feed. rewrite (list_lookup_total_correct _ _ _ Hf).
    rewrite Hperr', Hperr. rewrite Hnewest, for_each_cons, Hann. done. }
  destruct (cache_parser_front _ _ _ _ _ Hcp) as [tl Hlru].
  exists (mkProc (record_error u (AttributeError "title") (self p)) st2),
    a, st2, (mkParsedFeed (feed f) (<[0%nat := set_feed_link l e0]> (entries f))
               (bozo f) (bozo_exception f)).
  split.
  { unfold fetch_step. mrun. cbn [fst snd]. by rewrite Hsrc. }
  split; [cbn; by rewrite lookup_insert_eq|].
  split.
  { cbn [store]. unfold cache_parser.
    change (lru st2) with (lru st1). rewrite Hlru. cbn.
    rewrite decide_True by done. cbn.
    unfold st2, write_entry. cbn. by rewrite Hlru. }
  split; [by apply write_entry_lookup|].
  cbn. rewrite Hentries. done.
Qed.

End PartialWrite.

(** ** The further properties at sample inputs *)

Lemma num_keep_setter_keeps_feeds_witness :
  set_num_keep 2 (Demo.mixer ["A"; "B"] 3 10)
  = with_mixed_entries [] (with_num_keep 2 (Demo.mixer ["A"; "B"] 3 10)).
Proof.
  apply (num_keep_setter_keeps_feeds 2 (Demo.mixer ["A"; "B"] 3 10)).
  - vm_compute. discriminate.
  - vm_compute. discriminate.
Defined.

Lemma num_keep_setter_drops_feeds_when_bound_negative_witness :
  let fm := Sample.negative_bound in
  _feeds (set_num_keep 2 fm) `prefix_of` _feeds fm
  ∧ Z.of_nat (length (_feeds (set_num_keep 2 fm)))
    = Z.max 0 (Z.of_nat (length (_feeds fm)) + max_feeds fm).
Proof.
  intros fm.
  apply (num_keep_setter_drops_feeds_when_bound_negative 2 fm).
  reflexivity.
Defined.

Lemma cache_parser_keeps_table_bounded_witness :
  let st := empty_store in
  let st' := (cache_parser Demo.parse "A" st).2 in
  (length (lru st') ≤ maxsize)%nat
  ∧ NoDup ((lru st').*1)
  ∧ (heap st' = heap st
     ∨ (("A" ∉ (lru st).*1) ∧ heap st' = heap st ++ [Demo.parse "A"]))
  ∧ ("A" ∈ ((lru st).*1) → heap st' = heap st).
Proof.
  intros st st'.
  apply (cache_parser_keeps_table_bounded Demo.parse "A" st st' 0%nat).
  - vm_compute. lia.
  - constructor.
  - reflexivity.
Defined.

Lemma cache_parser_keeps_recent_texts_witness :
  let st1 := (cache_parser Demo.parse "A" empty_store).2 in
  let st2 := foldl (λ st t, (cache_parser Demo.parse t st).2) st1
               ["B"; "P"; "B"] in
  ∃ st3, cache_parser Demo.parse "A" st2 = (Returns 0%nat, st3)
         ∧ heap st3 = heap st2.
Proof.
  intros st1.
  apply (cache_parser_keeps_recent_texts Demo.parse "A" ["B"; "P"; "B"]
           empty_store st1 0%nat).
  - repeat constructor; discriminate.
  - vm_compute. lia.
  - reflexivity.
Defined.

Lemma error_urls_name_failed_feeds_witness :
  let p := Demo.proc ["A"; "down"] 1 in
  let p' := (__fetch_entries Demo.parse Demo.reversed p).2 in
  (∀ u, is_Some (_error_urls (self p') !! u) → u ∈ _feeds (self p))
  ∧ (0 < max_threads (self p) →
     ∀ i u e, _feeds (self p) !! i = Some u →
              response Demo.reversed i u = Raises e →
              is_Some (_error_urls (self p') !! u)).
Proof.
  intros p p'.
  apply (error_urls_name_failed_feeds Demo.parse Demo.reversed p p'
           (__fetch_entries Demo.parse Demo.reversed p).1
           (store_ok_empty Demo.parse)).
  vm_compute. reflexivity.
Defined.

Lemma mixed_entries_count_is_bounded_witness :
  let p := Demo.proc ["A"; "B"] 1 in
  let p' := (__fetch_entries Demo.parse Demo.in_order p).2 in
  Z.of_nat (length (_mixed_entries (self p')))
  ≤ _num_keep (self p) * Z.of_nat (length (_feeds (self p))).
Proof.
  intros p p'.
  apply (mixed_entries_count_is_bounded Demo.parse Demo.in_order p p'
           (store_ok_empty Demo.parse)).
  - vm_compute. discriminate.
  - vm_compute. reflexivity.
Defined.

Lemma run_does_not_depend_on_cache_witness :
  let p := Demo.proc ["A"; "B"] 1 in
  let q := mkProc (self p)
             (store (mixed_entries Demo.parse Demo.reversed p).2) in
  (__fetch_entries Demo.parse Demo.in_order p).1
  = (__fetch_entries Demo.parse Demo.in_order q).1
  ∧ self (__fetch_entries Demo.parse Demo.in_order p).2
    = self (__fetch_entries Demo.parse Demo.in_order q).2.
Proof.
  intros p q.
  apply (run_does_not_depend_on_cache Demo.parse Demo.in_order p q).
  - apply store_ok_empty.
  - apply store_ok_after_read, store_ok_empty.
  - reflexivity.
Defined.

Lemma all_fetches_failing_gives_empty_result_witness :
  let p := Demo.proc ["down"; "down"] 3 in
  ∃ p',
    mixed_entries Demo.parse Demo.in_order p = (Returns [], p')
    ∧ store p' = store p
    ∧ _mixed_entries (self p') = []
    ∧ ∀ u, u ∈ _feeds (self p) → is_Some (_error_urls (self p') !! u).
Proof.
  intros p.
  apply (all_fetches_failing_gives_empty_result Demo.parse Demo.in_order p).
  - reflexivity.
  - reflexivity.
  - intros [|[|i]] u Hu; vm_compute in Hu; [| |discriminate Hu];
      injection Hu as <-; eexists; reflexivity.
Defined.

Lemma cached_read_is_repeatable_witness :
  let p := Demo.proc ["A"] 1 in
  let run := mixed_entries Demo.parse Demo.in_order p in
  let es := match run.1 with Returns es => es | Raises _ => [] end in
  mixed_entries Demo.parse Demo.reversed run.2 = (Returns es, run.2).
Proof.
  intros p run es.
  apply (cached_read_is_repeatable Demo.parse Demo.in_order Demo.reversed
           p run.2 es).
  - vm_compute. reflexivity.
  - vm_compute. discriminate.
Defined.

Lemma rendering_passes_entries_in_order_witness :
  let p := (mixed_entries Demo.parse Demo.in_order (Demo.proc ["A"] 1)).2 in
  ∃ gen,
    __generate_feed Demo.parse Atom1Feed Demo.reversed p = (Returns gen, p)
    ∧ add_item_calls gen = _mixed_entries (self p)
    ∧ gen_cls gen = Atom1Feed
    ∧ kw_title gen = self_title (self p)
    ∧ kw_link gen = self_link (self p)
    ∧ kw_description gen = self_desc (self p)
    ∧ (Atom1Feed = Atom1Feed →
       atom_feed Demo.parse Demo.render Demo.reversed p
       = (Returns (Demo.render gen), p))
    ∧ (Atom1Feed = Rss201rev2Feed →
       rss_feed Demo.parse Demo.render Demo.reversed p
       = (Returns (Demo.render gen), p))
    ∧ (Atom1Feed = JSONFeed →
       json_feed Demo.parse Demo.render Demo.reversed p
       = (Returns (Demo.render gen), p)).
Proof.
  intros p.
  apply (rendering_passes_entries_in_order Demo.parse Demo.render Atom1Feed
           Demo.reversed p).
  vm_compute. discriminate.
Defined.


Lemma description_tie_break_witness :
  let ps := false in
  let e := Sample.described in
  let m := Sample.metadata_of (extract_one ps e) in
  let s := text_or_none (summary e) in
  let c := first_content (content e) in
  (description_truthy s = true → description_truthy c = true →
   md_description m = if ps then s else c)
  ∧ (description_truthy s = true → description_truthy c = false →
     md_description m = s)
  ∧ (description_truthy s = false → description_truthy c = true →
     md_description m = c)
  ∧ (description_truthy s = false → description_truthy c = false →
     md_description m = if ps then c else s)
  ∧ (ps = true → description_truthy s = false → content e = Some [] →
     md_description m = EmptyContent).
Proof.
  intros ps e m.
  apply (description_tie_break ps e m).
  reflexivity.
Defined.

Lemma canonical_entry_inherits_from_feed_witness :
  let st := (cache_parser Demo.parse "A" empty_store).2 in
  let st' := (annotate 0 (0%nat, 0%nat) st).2 in
  let f := Demo.parse "A" in
  let e := Demo.entry "a1" (Some "2020-01-03") in
  let m := Sample.metadata_of (extract_one true (read_entry st' (0%nat, 0%nat))) in
  fi_link (feed f) = Some (md_feed_link m)
  ∧ fi_title (feed f) = Some (md_feed_title m)
  ∧ md_author m
    = (λ ad, mkAuthorMeta (ad_email ad) (ad_name ad) (ad_href ad))
        <$> (match author_detail e with
             | Some ad => Some ad
             | None => fi_author_detail (feed f)
             end).
Proof.
  intros st st' f e m.
  apply (canonical_entry_inherits_from_feed 0 0 st st' f e true m);
    reflexivity.
Defined.

Lemma extract_meta_is_all_or_nothing_witness :
  let es1 := [Sample.described] in
  let e := Demo.entry "a1" None in
  let es2 := [Sample.described] in
  extract_meta (es1 ++ e :: es2) true = Raises (KeyError "feed_link")
  ∧ ∃ ms1, extract_meta es1 true = Returns ms1 ∧ length ms1 = length es1.
Proof.
  intros es1 e es2.
  apply (extract_meta_is_all_or_nothing es1 es2 e true (KeyError "feed_link")).
  - constructor; [|constructor]. eexists. reflexivity.
  - reflexivity.
Defined.

Lemma run_never_raises_KeyError_witness :
  (__fetch_entries Demo.parse Demo.in_order (Demo.proc ["A"; "C"] 1)).1
  ≠ Raises (KeyError "feed_link").
Proof.
  apply (run_never_raises_KeyError Demo.parse Demo.in_order
           (Demo.proc ["A"; "C"] 1)
           (__fetch_entries Demo.parse Demo.in_order (Demo.proc ["A"; "C"] 1)).2
           _ "feed_link" (store_ok_empty Demo.parse)).
  vm_compute. reflexivity.
Defined.

Lemma raising_read_leaves_mixer_unfetched_witness :
  let p := mkProc (Demo.mixer ["A"] 1 0) empty_store in
  let p' := (mixed_entries Demo.parse Demo.in_order p).2 in
  _mixed_entries (self p) = [] ∧ _mixed_entries (self p') = []
  ∧ ∀ net', mixed_entries Demo.parse net' p'
            = refetch Demo.parse net' (λ es, es) p'.
Proof.
  intros p p'.
  apply (raising_read_leaves_mixer_unfetched Demo.parse Demo.in_order p p'
           (ValueError "max_workers must be greater than 0")
           (store_ok_empty Demo.parse)).
  vm_compute. reflexivity.
Defined.

Lemma newest_grows_with_keep_count_witness :
  let f := Demo.parse "A" in
  newest_of 1 0 f `prefix_of` newest_of 2 0 f
  ∧ newest_of 2 0 f `prefix_of` newest_of 0 0 f
  ∧ newest_of 0 0 f = entry_refs 0 f.
Proof.
  intros f.
  apply (newest_grows_with_keep_count 1 2 0 0 f); vm_compute; congruence.
Defined.

Lemma missing_title_leaves_link_written_witness :
  let p := Demo.proc ["T"] 3 in
  ∃ p' a st'' f',
    fetch_step Sample.parse 3 ("T", Returns "T") [] p = (Returns [], p')
    ∧ _error_urls (self p') !! "T" = Some (AttributeError "title")
    ∧ cache_parser Sample.parse "T" (store p') = (Returns a, st'')
    ∧ heap st'' !! a = Some f'
    ∧ feed_link <$> entries f' !! 0%nat = Some (Some "http://t.example").
Proof.
  intros p.
  apply (missing_title_leaves_link_written Sample.parse 3 "T" "T"
           "http://t.example" [] p (store_ok_empty Sample.parse)).
  - reflexivity.
  - vm_compute. discriminate.
  - reflexivity.
  - reflexivity.
Defined.

Lemma last_failure_of_a_url_is_recorded_witness :
  let p := Demo.proc ["down"; "down"; "A"] 1 in
  let l1 := [("down", Raises (RequestException "timeout"))] in
  let l2 := [("A", Returns "A")] in
  let run := collect Demo.parse 1
               (l1 ++ ("down", Raises (RequestException "503")) :: l2) p in
  _error_urls (self run.2) !! "down" = Some (RequestException "503").
Proof.
  intros p l1 l2 run.
  apply (last_failure_of_a_url_is_recorded Demo.parse 1 l1 l2 "down"
           (RequestException "503") p run.2 run.1
           (store_ok_empty Demo.parse)).
  - repeat constructor. discriminate.
  - vm_compute. reflexivity.
Defined.
